(** * BigInt: decimal arbitrary-precision arithmetic (src/BigInt.cpp)

    A shallow embedding of the class [BigInt] of src/BigInt.cpp and the
    verification of its arithmetic.

    Modelling conventions.
    - [vector<char> vi] is a [list Z], least-significant digit first; a
      [char] is a signed 8-bit integer and a value stored into one from a
      wider computation goes through [to_char] wherever the source can
      leave the range of a [char].
    - [int] and [long long] temporaries are [Z]; [/] and [%] on them are
      the truncating [Z.quot] and [Z.rem] of C++.
    - Indices and sizes are [nat] (the source stores them in [int]; sizes
      are assumed to fit).
    - [operator[]] outside the bounds of the vector is undefined behaviour
      in C++; the model makes it the outcome [OutOfBounds].
    - [throw "..."] is the outcome [Throw] carrying the thrown literal.
    - A loop whose exit depends on the data runs on a fuel; running out of
      it is the outcome [OutOfFuel]. *)

From Stdlib Require Import String Ascii DecimalString.
From Stdlib Require Import ZArith List Bool Lia Arith Factorial.
From Stdlib Require Import Permutation Sorted.
Import ListNotations.

Open Scope Z_scope.

(** ** Outcomes of a call *)

Inductive outcome (A : Type) : Type :=
| Ret (a : A)
| Throw (msg : string)
| OutOfBounds
| OutOfFuel.

Arguments Ret {A} a.
Arguments Throw {A} msg.
Arguments OutOfBounds {A}.
Arguments OutOfFuel {A}.

Definition bind {A B : Type} (c : outcome A) (k : A -> outcome B) : outcome B :=
  match c with
  | Ret a => k a
  | Throw msg => Throw msg
  | OutOfBounds => OutOfBounds
  | OutOfFuel => OutOfFuel
  end.

Notation "x <- c ;; k" := (bind c (fun x => k))
  (at level 61, c at next level, right associativity).

(** ** Vector accesses *)

(** [v[i]] read, checked. *)
Definition load (v : list Z) (i : nat) : outcome Z :=
  match nth_error v i with
  | Some d => Ret d
  | None => OutOfBounds
  end.

(** The vector [v] with its element [i] replaced by [d] (in range). *)
Fixpoint update (v : list Z) (i : nat) (d : Z) : list Z :=
  match v, i with
  | [], _ => []
  | _ :: v', O => d :: v'
  | e :: v', S i' => e :: update v' i' d
  end.

(** [v[i] = d], checked. *)
Definition store (v : list Z) (i : nat) (d : Z) : outcome (list Z) :=
  if (i <? length v)%nat then Ret (update v i d) else OutOfBounds.

(** Conversion of an [int] to a (signed, 8-bit) [char]. *)
Definition to_char (z : Z) : Z := (z + 128) mod 256 - 128.

(** The value of a character of a [std::string], as a signed [char]. *)
Definition char_of_ascii (c : ascii) : Z :=
  let n := Z.of_N (N_of_ascii c) in
  if n <? 128 then n else n - 256.

(** [INT_MAX] of <limits.h> for a 32-bit [int]. *)
Definition INT_MAX : Z := 2147483647.

Module BigInt.

(** The private member [vi]. *)
Definition t : Type := list Z.

(** *** Constructors *)

(** [BigInt::BigInt()] *)
Definition default : t := [].

(** The loop of [BigInt::BigInt(int)]:
    [while (n > 0) { vi.push_back(n % 10); n /= 10; }]. *)
Fixpoint of_int_loop (fuel : nat) (n : Z) (vi : t) : t :=
  match fuel with
  | O => vi
  | S fuel' =>
      if 0 <? n
      then of_int_loop fuel' (Z.quot n 10) (vi ++ [Z.rem n 10])
      else vi
  end.

(** [BigInt::BigInt(int n)].  [n] is an [int], at most [INT_MAX]: it has
    at most ten decimal digits, and ten iterations exhaust it
    ([of_int_loop_exhausts]). *)
Definition of_int (n : Z) : t := of_int_loop 10 n [].

(** [s[i]] of a [std::string]. *)
Definition char_at (s : string) (i : nat) : Z :=
  char_of_ascii (nth i (list_ascii_of_string s) zero).

(** The loop of [BigInt::BigInt(string)], [i] being the number of
    characters still to read:
    [for (int i = s.length() - 1; i >= 0; i--) vi.push_back(s[i] - '0');]. *)
Fixpoint of_string_loop (i : nat) (s : string) (vi : t) : t :=
  match i with
  | O => vi
  | S i' => of_string_loop i' s (vi ++ [to_char (char_at s i' - 48)])
  end.

(** [BigInt::BigInt(string s)] *)
Definition of_string (s : string) : t :=
  of_string_loop (String.length s) s [].

(** [BigInt::size] *)
Definition size (vi : t) : nat := length vi.

(** *** Comparisons *)

(** [BigInt::operator==]: equality of the two vectors. *)
Fixpoint eqb (vi other : t) : bool :=
  match vi, other with
  | [], [] => true
  | d :: vi', e :: other' => (d =? e) && eqb vi' other'
  | _, _ => false
  end.

(** The loop of [BigInt::operator<=], [i] being the number of digits still
    to compare:
    [for (int i = vi.size() - 1; i >= 0; i--)
       if (vi[i] != other.vi[i]) return vi[i] < other.vi[i];
     return true;] *)
Fixpoint leb_loop (i : nat) (vi other : t) : bool :=
  match i with
  | O => true
  | S i' =>
      if negb (nth i' vi 0 =? nth i' other 0)
      then nth i' vi 0 <? nth i' other 0
      else leb_loop i' vi other
  end.

(** [BigInt::operator<=] *)
Definition leb (vi other : t) : bool :=
  if negb (length vi =? length other)%nat
  then (length vi <? length other)%nat
  else leb_loop (length vi) vi other.

(** *** Normalisation *)

(** [while (!result.vi.empty() && result.vi.back() == 0) result.vi.pop_back();]
    Every iteration removes an element, so the length is enough fuel. *)
Fixpoint strip_loop (fuel : nat) (vi : t) : t :=
  match fuel with
  | O => vi
  | S fuel' =>
      match vi with
      | [] => vi
      | _ :: _ =>
          if last vi 0 =? 0 then strip_loop fuel' (removelast vi) else vi
      end
  end.

Definition strip (vi : t) : t := strip_loop (length vi) vi.

(** *** Addition *)

(** The loop of [BigInt::operator+]:
    [for (int i = 0; i < maxSize || carry; i++) {
       if (i == result.size()) result.vi.push_back(0);
       int sum = carry + (i < vi.size() ? vi[i] : 0)
                       + (i < other.vi.size() ? other.vi[i] : 0);
       result.vi[i] = sum % 10;
       carry = sum / 10;
     }] *)
Fixpoint add_loop (fuel : nat) (vi other : t) (maxSize : nat)
    (result : t) (carry : Z) (i : nat) : outcome t :=
  if (i <? maxSize)%nat || negb (carry =? 0) then
    match fuel with
    | O => OutOfFuel
    | S fuel' =>
        let result :=
          if (i =? length result)%nat then result ++ [0] else result in
        let sum := carry + (if (i <? length vi)%nat then nth i vi 0 else 0)
                         + (if (i <? length other)%nat then nth i other 0 else 0) in
        result <- store result i (Z.rem sum 10) ;;
        add_loop fuel' vi other maxSize result (Z.quot sum 10) (S i)
    end
  else Ret result.

(** [BigInt::operator+].  Past [maxSize] the sum is the carry alone, and an
    [int] carry vanishes after at most ten divisions by ten. *)
Definition add (vi other : t) : outcome t :=
  let maxSize := Nat.max (length vi) (length other) in
  add_loop (maxSize + 10) vi other maxSize [] 0 0%nat.

(** *** Subtraction *)

(** The loop of [BigInt::operator-], [n] being the number of iterations
    left:
    [for (int i = 0; i < vi.size(); i++) {
       int sub = vi[i] - borrow - (i < other.vi.size() ? other.vi[i] : 0);
       if (sub < 0) { sub += 10; borrow = 1; } else { borrow = 0; }
       result.vi.push_back(sub);
     }] *)
Fixpoint sub_loop (n : nat) (vi other : t) (result : t) (borrow : Z)
    (i : nat) : t :=
  match n with
  | O => result
  | S n' =>
      let sub := nth i vi 0 - borrow
                 - (if (i <? length other)%nat then nth i other 0 else 0) in
      if sub <? 0
      then sub_loop n' vi other (result ++ [to_char (sub + 10)]) 1 (S i)
      else sub_loop n' vi other (result ++ [to_char sub]) 0 (S i)
  end.

(** [BigInt::operator-] *)
Definition sub (vi other : t) : t :=
  strip (sub_loop (length vi) vi other [] 0 0%nat).

(** *** Multiplication *)

(** The inner loop of [BigInt::operator*], for the digit [vi[i]]:
    [for (int j = 0; j < other.vi.size() || carry; j++) {
       long long sum = result.vi[i+j] + carry
                     + vi[i] * 1LL * (j < other.vi.size() ? other.vi[j] : 0);
       result.vi[i+j] = sum % 10;
       carry = sum / 10;
     }] *)
Fixpoint mul_inner (fuel : nat) (vi_i : Z) (other : t) (i : nat)
    (result : t) (carry : Z) (j : nat) : outcome t :=
  if (j <? length other)%nat || negb (carry =? 0) then
    match fuel with
    | O => OutOfFuel
    | S fuel' =>
        r <- load result (i + j) ;;
        let sum := r + carry
                   + vi_i * (if (j <? length other)%nat then nth j other 0 else 0) in
        result <- store result (i + j) (Z.rem sum 10) ;;
        mul_inner fuel' vi_i other i result (Z.quot sum 10) (S j)
    end
  else Ret result.

(** The outer loop of [BigInt::operator*], [n] being the number of
    iterations left.  Every iteration of the inner loop accesses
    [result.vi[i+j]] for a fresh [j], so it cannot run more than
    [result.vi.size()] times within bounds. *)
Fixpoint mul_outer (n : nat) (vi other : t) (result : t) (i : nat) : outcome t :=
  match n with
  | O => Ret result
  | S n' =>
      result <- mul_inner (length result + 1) (nth i vi 0) other i result 0 0%nat ;;
      mul_outer n' vi other result (S i)
  end.

(** [BigInt::operator*] *)
Definition mul (vi other : t) : outcome t :=
  result <- mul_outer (length vi) vi other
              (repeat 0 (length vi + length other)) 0%nat ;;
  Ret (strip result).

(** *** Division and modulo *)

(** The binary search of [operator/] and [operator%] (the same loop in
    both):
    [int x = 0, l = 0, r = 10;
     while (l <= r) {
       int m = (l + r) / 2;
       if (other * BigInt(m) <= current) { x = m; l = m + 1; }
       else { r = m - 1; }
     }]
    [r - l] decreases at every iteration. *)
Fixpoint search_loop (fuel : nat) (other current : t) (x l r : Z) : outcome Z :=
  if l <=? r then
    match fuel with
    | O => OutOfFuel
    | S fuel' =>
        let m := Z.quot (l + r) 2 in
        p <- mul other (of_int m) ;;
        if leb p current
        then search_loop fuel' other current m (m + 1) r
        else search_loop fuel' other current x l (m - 1)
    end
  else Ret x.

Definition search (other current : t) : outcome Z :=
  search_loop 11 other current 0 0 10.

(** The loop of [BigInt::operator/], [i] being the number of digits of the
    dividend still to bring down:
    [for (int i = vi.size() - 1; i >= 0; i--) {
       current.vi.insert(current.vi.begin(), vi[i]);
       ... search ...
       result.vi.insert(result.vi.begin(), x);
       current = current - other * BigInt(x);
     }] *)
Fixpoint div_loop (i : nat) (vi other : t) (result current : t) : outcome (t * t) :=
  match i with
  | O => Ret (result, current)
  | S i' =>
      let current := nth i' vi 0 :: current in
      x <- search other current ;;
      let result := x :: result in
      p <- mul other (of_int x) ;;
      div_loop i' vi other result (sub current p)
  end.

(** [BigInt::operator/] *)
Definition div (vi other : t) : outcome t :=
  if eqb other (of_int 0) then Throw "Division by zero"
  else
    rc <- div_loop (length vi) vi other [] [] ;;
    Ret (strip (fst rc)).

(** The loop of [BigInt::operator%]. *)
Fixpoint mod_loop (i : nat) (vi other : t) (current : t) : outcome t :=
  match i with
  | O => Ret current
  | S i' =>
      let current := nth i' vi 0 :: current in
      x <- search other current ;;
      p <- mul other (of_int x) ;;
      mod_loop i' vi other (sub current p)
  end.

(** [BigInt::operator%] *)
Definition modulo (vi other : t) : outcome t :=
  if eqb other (of_int 0) then Throw "Modulo by zero"
  else mod_loop (length vi) vi other [].

(** *** Increment

    Both operators assign to the receiver; a call is modelled by the pair
    of the value it returns and the receiver after the call. *)

(** [BigInt::operator++(int)]:
    [BigInt temp = *this; *this = *this + 1; return temp;] *)
Definition post_increment (this : t) : outcome (t * t) :=
  let temp := this in
  this <- add this (of_int 1) ;;
  Ret (temp, this).

(** [BigInt::operator++()]: [*this = *this + 1; return *this;] *)
Definition pre_increment (this : t) : outcome (t * t) :=
  this <- add this (of_int 1) ;;
  Ret (this, this).

(** *** Printing *)

(** [cout << static_cast<int>(d)], on a stream in its default formatting
    state: the decimal numeral of an [int]. *)
Definition print_int (d : Z) : string :=
  NilZero.string_of_int (Z.to_int d).

(** The loop of [BigInt::print], writing to the stream [out]:
    [for (int i = vi.size() - 1; i >= 0; i--) cout << static_cast<int>(vi[i]);] *)
Fixpoint print_loop (i : nat) (vi : t) (out : string) : string :=
  match i with
  | O => out
  | S i' => print_loop i' vi (String.append out (print_int (nth i' vi 0)))
  end.

(** [BigInt::print], as the text written. *)
Definition print (vi : t) : string := print_loop (length vi) vi "".

(** *** Factorial *)

(** The loop of [BigInt::fact]:
    [for (BigInt i = 2; i <= *this; i = i + 1) result = result * i;] *)
Fixpoint fact_loop (fuel : nat) (this : t) (result i : t) : outcome t :=
  if leb i this then
    match fuel with
    | O => OutOfFuel
    | S fuel' =>
        result <- mul result i ;;
        i <- add i (of_int 1) ;;
        fact_loop fuel' this result i
    end
  else Ret result.

(** [BigInt::fact].  While [i <= *this] holds [i] has no more digits than
    the receiver, so the loop runs fewer than [10 ^ size()] times. *)
Definition fact (this : t) : outcome t :=
  fact_loop (10 ^ length this) this (of_int 1) (of_int 2).

(** *** Fibonacci *)

(** [BigInt::fiboHelper], the fuel bounding the depth of the recursion:
    [if (n == 0) return a;
     if (n == 1) return b;
     return fiboHelper(n - 1, b, a + b);] *)
Fixpoint fiboHelper (fuel : nat) (n a b : t) : outcome t :=
  if eqb n (of_int 0) then Ret a
  else if eqb n (of_int 1) then Ret b
  else
    match fuel with
    | O => OutOfFuel
    | S fuel' =>
        s <- add a b ;;
        fiboHelper fuel' (sub n (of_int 1)) b s
    end.

(** [BigInt::fibo]: [return fiboHelper( *this, 0, 1);].  Every call but the
    first receives a difference, which has no more digits than the
    receiver, and the argument goes down by one at every call: the depth
    stays below [10 ^ size()]. *)
Definition fibo (this : t) : outcome t :=
  fiboHelper (10 ^ length this) this (of_int 0) (of_int 1).

(** *** Addition to a machine integer *)

(** [BigInt operator+(int n, const BigInt& bigint)]:
    [return BigInt(n) + bigint;] *)
Definition int_add (n : Z) (bigint : t) : outcome t :=
  add (of_int n) bigint.

End BigInt.

(** * Bucket: generate, sort and merge (src/bucketList.cpp)

    [vector<int> v] is a [list Z].  The counter [globalSwapCount], a
    global [long long], is threaded through the calls that change it.
    [rand()] is the sequence of the numbers its successive calls return,
    [rand k] for the call number [k], with the number of calls made so
    far as the state. *)

Module Bucket.

(** The private member [v]. *)
Definition t : Type := list Z.

(** The loop of [Bucket::generate], [n] being the number of iterations
    left:
    [for (int i = 0; i < size; ++i)
       v.push_back(min + rand() % (max - min + 1));]
    The remainder by zero and the overflow of [int] are undefined in C++:
    the model is the code for [min <= max] and [max - min < INT_MAX]. *)
Fixpoint generate_loop (n : nat) (rand : nat -> Z) (calls : nat) (v : t)
    (min max : Z) : t * nat :=
  match n with
  | O => (v, calls)
  | S n' =>
      generate_loop n' rand (S calls)
        (v ++ [min + Z.rem (rand calls) (max - min + 1)]) min max
  end.

(** [Bucket::generate] *)
Definition generate (rand : nat -> Z) (calls : nat) (v : t)
    (size min max : Z) : t * nat :=
  generate_loop (Z.to_nat size) rand calls v min max.

(** [swap(v[j], v[j + 1])] *)
Definition swap (v : t) (j : nat) : t :=
  update (update v j (nth (S j) v 0)) (S j) (nth j v 0).

(** The inner loop of [Bucket::sort], [n] being the number of iterations
    left:
    [for (size_t j = 0; j < v.size() - i - 1; j++)
       if (v[j] > v[j + 1]) { swap(v[j], v[j + 1]); globalSwapCount++; }] *)
Fixpoint sort_inner (n : nat) (v : t) (globalSwapCount : Z) (j : nat) : t * Z :=
  match n with
  | O => (v, globalSwapCount)
  | S n' =>
      if nth j v 0 >? nth (S j) v 0
      then sort_inner n' (swap v j) (globalSwapCount + 1) (S j)
      else sort_inner n' v globalSwapCount (S j)
  end.

(** The outer loop of [Bucket::sort], [n] being the number of iterations
    left: [for (size_t i = 0; i < v.size(); i++) ...].  Within the loop
    [i < v.size()], so [v.size() - i - 1] does not wrap. *)
Fixpoint sort_outer (n : nat) (v : t) (globalSwapCount : Z) (i : nat) : t * Z :=
  match n with
  | O => (v, globalSwapCount)
  | S n' =>
      let '(v', count') := sort_inner (length v - i - 1) v globalSwapCount 0 in
      sort_outer n' v' count' (S i)
  end.

(** [Bucket::sort] *)
Definition sort (v : t) (globalSwapCount : Z) : t * Z :=
  sort_outer (length v) v globalSwapCount 0.

(** [Bucket::size] *)
Definition size (v : t) : Z := Z.of_nat (length v).

(** [Bucket::atIndex]: [return v[index];], unchecked. *)
Definition atIndex (v : t) (index : Z) : outcome Z :=
  if index <? 0 then OutOfBounds else load v (Z.to_nat index).

(** [Bucket::merge] of a bucket [b] other than the receiver:
    [v.insert(v.end(), b.v.begin(), b.v.end()); sort();] *)
Definition merge (v b : t) (globalSwapCount : Z) : t * Z :=
  sort (v ++ b) globalSwapCount.

(** *** The buckets of [main]

    [vector<Bucket> list] is the list [lst]. *)

(** The first loop of [main], [n] being the number of iterations left:
    [for (int i = 0; i < bucketCount; i++) {
       Bucket b; b.generate(bucketSize, bucketMin, bucketMax);
       list.push_back(b);
     }] *)
Fixpoint fill (n : nat) (rand : nat -> Z) (calls : nat) (lst : list t)
    (bucketSize bucketMin bucketMax : Z) : list t * nat :=
  match n with
  | O => (lst, calls)
  | S n' =>
      let '(b, calls') := generate rand calls [] bucketSize bucketMin bucketMax in
      fill n' rand calls' (lst ++ [b]) bucketSize bucketMin bucketMax
  end.

(** [for (auto& bucket : list) bucket.sort();] *)
Fixpoint sort_each (lst : list t) (globalSwapCount : Z) : list t * Z :=
  match lst with
  | [] => ([], globalSwapCount)
  | bucket :: rest =>
      let '(bucket', count') := sort bucket globalSwapCount in
      let '(rest', count'') := sort_each rest count' in
      (bucket' :: rest', count'')
  end.

(** [while (!list.empty()) { endGame.merge(list[0]); list.erase(list.begin()); }] *)
Fixpoint merge_all (lst : list t) (endGame : t) (globalSwapCount : Z) : t * Z :=
  match lst with
  | [] => (endGame, globalSwapCount)
  | b :: rest =>
      let '(endGame', count') := merge endGame b globalSwapCount in
      merge_all rest endGame' count'
  end.

(** [main] from the parsed arguments to the bucket written to
    bucketList.out, with the final [globalSwapCount]. *)
Definition main_buckets (rand : nat -> Z)
    (bucketCount bucketSize bucketMin bucketMax : Z) : t * Z :=
  let '(lst, _) :=
    fill (Z.to_nat bucketCount) rand 0 [] bucketSize bucketMin bucketMax in
  let '(lst', count) := sort_each lst 0 in
  merge_all lst' [] count.

(** The lines [main] writes to bucketList.out:
    [for (int i = 0; i < endGame.size(); i++) out << endGame.atIndex(i) << endl;] *)
Fixpoint written (n : nat) (endGame : t) (i : Z) : outcome (list Z) :=
  match n with
  | O => Ret []
  | S n' =>
      x <- atIndex endGame i ;;
      rest <- written n' endGame (i + 1) ;;
      Ret (x :: rest)
  end.

End Bucket.

(** ** Numeric value and the invariants of the data model *)

(** The number a digit sequence stands for. *)
Fixpoint value (vi : BigInt.t) : Z :=
  match vi with
  | [] => 0
  | d :: vi' => d + 10 * value vi'
  end.

Definition digit (d : Z) : Prop := 0 <= d <= 9.

(** Invariant B: every element is a decimal digit. *)
Definition digits (vi : BigInt.t) : Prop := Forall digit vi.

(** Invariant A: no most-significant zero digit; zero is the empty
    sequence. *)
Definition canonical (vi : BigInt.t) : Prop :=
  digits vi /\ last vi 1 <> 0.

(** Decidable versions, for evaluation. *)
Definition digitsb (vi : BigInt.t) : bool :=
  forallb (fun d => (0 <=? d) && (d <=? 9)) vi.

Definition canonicalb (vi : BigInt.t) : bool :=
  digitsb vi && negb (last vi 1 =? 0).

(** [10 ^ n], for the weight of the digit at position [n]. *)
Definition pow10 (n : nat) : Z := 10 ^ Z.of_nat n.

(** The factorial of a non-negative integer. *)
Definition factorial (n : Z) : Z := Z.of_nat (Factorial.fact (Z.to_nat n)).

(** The character of a decimal digit. *)
Definition digit_ascii (d : Z) : ascii := ascii_of_N (Z.to_N (d + 48)).

(** The number of pairs of positions of a vector whose elements are out of
    order. *)
Fixpoint inversions (v : list Z) : Z :=
  match v with
  | [] => 0
  | x :: v' => Z.of_nat (length (filter (fun y => y <? x) v')) + inversions v'
  end.

(** The Fibonacci numbers. *)
Fixpoint fib (n : nat) : Z :=
  match n with
  | O => 0
  | S k => match k with
           | O => 1
           | S j => fib j + fib k
           end
  end.

(** The characters ['0'] ... ['9'], and the strings made of them. *)
Definition digit_char (c : ascii) : Prop :=
  (48 <= N_of_ascii c <= 57)%N.

Definition digit_string (s : string) : Prop :=
  Forall digit_char (list_ascii_of_string s).

(** The digit [BigInt(string)] reads from a character: [s[i] - '0']. *)
Definition read_char (c : ascii) : Z := to_char (char_of_ascii c - 48).

(** The number a string of decimal digits denotes, read left to right. *)
Definition decimal_value (s : string) : Z :=
  fold_left (fun acc c => 10 * acc + (Z.of_N (N_of_ascii c) - 48))
            (list_ascii_of_string s) 0.

(** The values an arithmetic operation on [a] and [b] produces: what [+],
    [-], [*], [/] and [%] return, and what the increments of [a] return
    and leave in the receiver. *)
Inductive produced (a b : BigInt.t) : BigInt.t -> Prop :=
| produced_add r : BigInt.add a b = Ret r -> produced a b r
| produced_sub : produced a b (BigInt.sub a b)
| produced_mul r : BigInt.mul a b = Ret r -> produced a b r
| produced_div r : BigInt.div a b = Ret r -> produced a b r
| produced_mod r : BigInt.modulo a b = Ret r -> produced a b r
| produced_post_increment returned receiver :
    BigInt.post_increment a = Ret (returned, receiver) ->
    produced a b receiver
| produced_pre_increment returned receiver :
    BigInt.pre_increment a = Ret (returned, receiver) ->
    produced a b returned.

(** ** Outcomes *)

Lemma bind_Ret {A B : Type} (a : A) (k : A -> outcome B) :
  bind (Ret a) k = k a.
Proof. reflexivity. Qed.

(** ** Digits, powers of ten and values *)

Lemma pow10_0 : pow10 0 = 1.
Proof. reflexivity. Qed.

Lemma pow10_S n : pow10 (S n) = 10 * pow10 n.
Proof.
  unfold pow10. rewrite Nat2Z.inj_succ, Z.pow_succ_r by lia. reflexivity.
Qed.

Lemma pow10_pos n : 0 < pow10 n.
Proof. unfold pow10. apply Z.pow_pos_nonneg; lia. Qed.

Lemma pow10_add n m : pow10 (n + m) = pow10 n * pow10 m.
Proof.
  unfold pow10. rewrite Nat2Z.inj_add, Z.pow_add_r by lia. reflexivity.
Qed.

Lemma pow10_le n m : (n <= m)%nat -> pow10 n <= pow10 m.
Proof.
  intros H. unfold pow10. apply Z.pow_le_mono_r; lia.
Qed.

Lemma pow10_lt_inv n m : pow10 n < pow10 m -> (n < m)%nat.
Proof.
  intros H. destruct (Nat.lt_ge_cases n m) as [|Hge]; [assumption|].
  apply pow10_le in Hge. lia.
Qed.

Lemma digits_nil : digits [].
Proof. constructor. Qed.

Lemma digits_cons d vi : digits (d :: vi) <-> digit d /\ digits vi.
Proof.
  unfold digits. split.
  - intros H. inversion H; auto.
  - intros [H1 H2]. constructor; assumption.
Qed.

Lemma digits_app a b : digits (a ++ b) <-> digits a /\ digits b.
Proof. unfold digits. apply Forall_app. Qed.

Lemma digits_snoc vi d : digits (vi ++ [d]) <-> digits vi /\ digit d.
Proof.
  rewrite digits_app, digits_cons. intuition. apply digits_nil.
Qed.

Lemma digits_nth vi i : digits vi -> digit (nth i vi 0).
Proof.
  intros H. destruct (Nat.lt_ge_cases i (length vi)) as [Hlt|Hge].
  - unfold digits in H. rewrite Forall_forall in H. apply H, nth_In, Hlt.
  - rewrite nth_overflow by assumption. unfold digit. lia.
Qed.

Lemma digits_firstn vi n : digits vi -> digits (firstn n vi).
Proof.
  intros H. rewrite <- (firstn_skipn n vi) in H. apply digits_app in H. tauto.
Qed.

Lemma digits_skipn vi n : digits vi -> digits (skipn n vi).
Proof.
  intros H. rewrite <- (firstn_skipn n vi) in H. apply digits_app in H. tauto.
Qed.

Lemma digits_repeat0 n : digits (repeat 0 n).
Proof.
  induction n; simpl; [apply digits_nil|].
  apply digits_cons. split; [unfold digit; lia|assumption].
Qed.

Lemma digitsb_spec vi : digitsb vi = true <-> digits vi.
Proof.
  unfold digitsb, digits. rewrite forallb_forall, Forall_forall.
  split; intros H d Hd; specialize (H d Hd); unfold digit in *; lia.
Qed.

Lemma canonicalb_spec vi : canonicalb vi = true <-> canonical vi.
Proof.
  unfold canonicalb, canonical.
  rewrite andb_true_iff, digitsb_spec, negb_true_iff, Z.eqb_neq. tauto.
Qed.

Lemma value_app a b : value (a ++ b) = value a + pow10 (length a) * value b.
Proof.
  induction a as [|d a IH]; cbn [length app value].
  - rewrite pow10_0. lia.
  - rewrite IH, pow10_S. ring.
Qed.

Lemma value_snoc vi d : value (vi ++ [d]) = value vi + pow10 (length vi) * d.
Proof. rewrite value_app. cbn [value]. ring. Qed.

Lemma value_repeat0 n : value (repeat 0 n) = 0.
Proof. induction n; cbn [repeat value]; lia. Qed.

Lemma value_bound vi : digits vi -> 0 <= value vi < pow10 (length vi).
Proof.
  induction vi as [|d vi IH]; intros H; cbn [length value].
  - rewrite pow10_0. lia.
  - apply digits_cons in H. destruct H as [Hd H]. specialize (IH H).
    rewrite pow10_S. unfold digit in Hd. lia.
Qed.

Lemma value_nonneg vi : digits vi -> 0 <= value vi.
Proof. intros H. apply value_bound in H. lia. Qed.

(** The value of the first [S i] digits. *)
Lemma value_firstn_S vi i :
  value (firstn (S i) vi) = value (firstn i vi) + pow10 i * nth i vi 0.
Proof.
  revert i. induction vi as [|d vi IH]; intros i.
  - destruct i; cbn [firstn value nth]; lia.
  - destruct i as [|i].
    + cbn [firstn value nth]. rewrite pow10_0. lia.
    + rewrite !firstn_cons. cbn [value nth]. rewrite IH, pow10_S. ring.
Qed.

Lemma value_firstn_all vi n : (length vi <= n)%nat -> value (firstn n vi) = value vi.
Proof. intros H. rewrite firstn_all2 by assumption. reflexivity. Qed.

(** Digits above a bound on the value are zero, and can be dropped. *)
Lemma value_firstn_small vi n :
  digits vi -> value vi < pow10 n -> value (firstn n vi) = value vi.
Proof.
  intros Hd Hlt.
  destruct (Nat.lt_ge_cases n (length vi)) as [Hn|Hn].
  2:{ apply value_firstn_all, Hn. }
  pose proof (firstn_skipn n vi) as E.
  rewrite <- E in Hlt at 1. rewrite <- E at 2.
  rewrite value_app in *.
  rewrite length_firstn, Nat.min_l in * by lia.
  pose proof (value_nonneg _ (digits_firstn _ n Hd)).
  pose proof (value_nonneg _ (digits_skipn _ n Hd)).
  pose proof (pow10_pos n).
  assert (value (skipn n vi) = 0) by nia.
  nia.
Qed.

Lemma value_skipn_S vi i :
  (i < length vi)%nat ->
  value (skipn i vi) = nth i vi 0 + 10 * value (skipn (S i) vi).
Proof.
  revert i. induction vi as [|d vi IH]; intros i Hi; simpl in Hi; [lia|].
  destruct i as [|i].
  - reflexivity.
  - change (skipn (S i) (d :: vi)) with (skipn i vi).
    change (skipn (S (S i)) (d :: vi)) with (skipn (S i) vi).
    simpl nth. apply IH. lia.
Qed.

(** ** Canonical form *)

Lemma canonical_nil : canonical [].
Proof. split; [apply digits_nil|simpl; lia]. Qed.

Lemma last_cons_cons (d e : Z) vi x : last (d :: e :: vi) x = last (e :: vi) x.
Proof. reflexivity. Qed.

Lemma canonical_cons d vi :
  canonical (d :: vi) <->
  digit d /\ canonical vi /\ (vi = [] -> d <> 0).
Proof.
  unfold canonical. rewrite digits_cons. destruct vi as [|e vi].
  - cbn [last]. split.
    + intros [[Hd Hn] Hnz]. split; [exact Hd|]. split; [split; [exact Hn|lia]|].
      intros _. exact Hnz.
    + intros (Hd & [Hn _] & Hnz). split; [split; assumption|]. apply Hnz. reflexivity.
  - rewrite last_cons_cons. split.
    + intros [[Hd Hn] Hnz]. split; [exact Hd|]. split; [split; assumption|].
      intros Hc. discriminate Hc.
    + intros (Hd & [Hn Hl] & _). split; [split; assumption|exact Hl].
Qed.

Lemma canonical_snoc vi d : digits vi -> digit d -> d <> 0 -> canonical (vi ++ [d]).
Proof.
  intros Hv Hd Hnz. split.
  - apply digits_snoc. auto.
  - rewrite last_last. assumption.
Qed.

Lemma canonical_digits vi : canonical vi -> digits vi.
Proof. intros [H _]. exact H. Qed.

(** A non-empty canonical sequence of [n] digits stands for a number of at
    least [10 ^ (n-1)]. *)
Lemma canonical_lower d vi : canonical (d :: vi) -> pow10 (length vi) <= value (d :: vi).
Proof.
  revert d. induction vi as [|e vi IH]; intros d H.
  - apply canonical_cons in H. destruct H as (Hd & _ & Hnz).
    cbn [length value]. rewrite pow10_0. unfold digit in Hd.
    specialize (Hnz eq_refl). lia.
  - apply canonical_cons in H. destruct H as (Hd & Hc & _).
    specialize (IH e Hc). cbn [length]. rewrite pow10_S.
    change (value (d :: e :: vi)) with (d + 10 * value (e :: vi)).
    unfold digit in Hd. lia.
Qed.

Lemma canonical_lower' vi :
  canonical vi -> vi <> [] -> pow10 (length vi - 1) <= value vi.
Proof.
  intros H Hne. destruct vi as [|d vi]; [congruence|].
  replace (length (d :: vi) - 1)%nat with (length vi) by (cbn [length]; lia).
  apply canonical_lower, H.

Qed.

Lemma canonical_value_pos vi : canonical vi -> vi <> [] -> 0 < value vi.
Proof.
  intros H Hne. pose proof (canonical_lower' vi H Hne).
  pose proof (pow10_pos (length vi - 1)). lia.
Qed.

Lemma canonical_value_zero vi : canonical vi -> value vi = 0 -> vi = [].
Proof.
  intros H Hz. destruct vi as [|d vi]; [reflexivity|].
  assert (0 < value (d :: vi)) by (apply canonical_value_pos; [assumption|discriminate]).
  lia.
Qed.

(** Digits whose value reaches [10 ^ (n-1)] with [n] digits are canonical. *)
Lemma canonical_of_bound vi :
  digits vi -> (vi = [] \/ pow10 (length vi - 1) <= value vi) -> canonical vi.
Proof.
  intros Hd Hb. split; [assumption|].
  destruct (list_eq_dec Z.eq_dec vi []) as [E|Hne].
  - subst vi. cbn [last]. lia.
  - destruct (exists_last Hne) as (l & d & E). subst vi.
    rewrite last_last. intros Hz. subst d.
    destruct Hb as [Hb|Hb]; [congruence|].
    rewrite value_snoc, length_app in Hb. cbn [length] in Hb.
    replace (length l + 1 - 1)%nat with (length l) in Hb by lia.
    apply digits_snoc in Hd. destruct Hd as [Hd _].
    apply value_bound in Hd. lia.
Qed.

Lemma canonical_length_le a b :
  canonical a -> digits b -> value a <= value b -> (length a <= length b)%nat.
Proof.
  intros Ha Hb Hle. destruct a as [|d a]; [cbn [length]; lia|].
  pose proof (canonical_lower d a Ha) as Hlow.
  pose proof (value_bound b Hb) as Hup.
  assert (pow10 (length a) < pow10 (length b)) as Hlt by lia.
  apply pow10_lt_inv in Hlt. cbn [length]. lia.
Qed.

(** Two canonical sequences of the same value are the same sequence. *)
Lemma canonical_unique a b :
  canonical a -> canonical b -> value a = value b -> a = b.
Proof.
  revert b. induction a as [|d a IH]; intros b Ha Hb E.
  - symmetry. apply canonical_value_zero; [assumption|]. rewrite <- E. reflexivity.
  - destruct b as [|e b].
    + apply canonical_value_zero; assumption.
    + apply canonical_cons in Ha. destruct Ha as (Hd & Ha & _).
      apply canonical_cons in Hb. destruct Hb as (He & Hb & _).
      cbn [value] in E. unfold digit in Hd, He.
      assert (d = e) by lia. subst e.
      f_equal. apply IH; try assumption. lia.
Qed.

(** ** Vector accesses *)

Lemma nth_guard (vi : list Z) i :
  (if (i <? length vi)%nat then nth i vi 0 else 0) = nth i vi 0.
Proof.
  destruct (Nat.ltb_spec i (length vi)) as [H|H]; [reflexivity|].
  symmetry. apply nth_overflow, H.
Qed.

Lemma length_update v i d : length (update v i d) = length v.
Proof.
  revert i. induction v as [|e v IH]; intros i; [reflexivity|].
  destruct i; cbn [update length]; [reflexivity|]. rewrite IH. reflexivity.
Qed.

Lemma update_snoc v e d : update (v ++ [e]) (length v) d = v ++ [d].
Proof.
  induction v as [|x v IH]; [reflexivity|].
  cbn [app length update]. rewrite IH. reflexivity.
Qed.

Lemma value_update v i d :
  (i < length v)%nat ->
  value (update v i d) = value v + pow10 i * (d - nth i v 0).
Proof.
  revert i. induction v as [|e v IH]; intros i Hi; cbn [length] in Hi; [lia|].
  destruct i as [|i]; cbn [update value nth].
  - rewrite pow10_0. ring.
  - rewrite IH by lia. rewrite pow10_S. ring.
Qed.

Lemma digits_update v i d : digits v -> digit d -> digits (update v i d).
Proof.
  revert i. induction v as [|e v IH]; intros i Hv Hd; [apply digits_nil|].
  apply digits_cons in Hv. destruct Hv as [He Hv].
  destruct i; cbn [update]; apply digits_cons; auto.
Qed.

Lemma skipn_update_above v i d k :
  (i < k)%nat -> skipn k (update v i d) = skipn k v.
Proof.
  revert i k. induction v as [|e v IH]; intros i k Hik; [reflexivity|].
  destruct k as [|k]; [lia|].
  destruct i as [|i]; cbn [update skipn]; [reflexivity|].
  apply IH. lia.
Qed.

Lemma load_in v i : (i < length v)%nat -> load v i = Ret (nth i v 0).
Proof.
  intros H. unfold load.
  rewrite (nth_error_nth' v 0 H). reflexivity.
Qed.

Lemma store_in v i d : (i < length v)%nat -> store v i d = Ret (update v i d).
Proof.
  intros H. unfold store.
  destruct (Nat.ltb_spec i (length v)); [reflexivity|lia].
Qed.

Lemma to_char_id z : -128 <= z <= 127 -> to_char z = z.
Proof.
  intros H. unfold to_char. rewrite Z.mod_small by lia. lia.
Qed.

Lemma nth_skipn_0 (v : list Z) i : nth i v 0 = nth 0 (skipn i v) 0.
Proof.
  revert i. induction v as [|e v IH]; intros i.
  - destruct i; reflexivity.
  - destruct i; [reflexivity|]. cbn [nth skipn]. apply IH.
Qed.

(** ** Normalisation *)

Lemma removelast_snoc (v : list Z) d : removelast (v ++ [d]) = v.
Proof. apply removelast_last. Qed.

Lemma strip_loop_snoc fuel v d :
  BigInt.strip_loop (S fuel) (v ++ [d]) =
  if d =? 0 then BigInt.strip_loop fuel v else v ++ [d].
Proof.
  cbn [BigInt.strip_loop].
  destruct (v ++ [d]) as [|x y] eqn:E.
  - destruct v; discriminate E.
  - rewrite <- E, last_last, removelast_snoc. reflexivity.
Qed.

(** What [strip] does: it removes a run of zeros from the end and leaves a
    sequence that does not end with one. *)
Lemma strip_spec vi :
  exists k, vi = BigInt.strip vi ++ repeat 0 k /\ last (BigInt.strip vi) 1 <> 0.
Proof.
  unfold BigInt.strip.
  induction vi as [|d vi IH] using rev_ind.
  - exists 0%nat. cbn. split; [reflexivity|lia].
  - rewrite length_app. cbn [length]. rewrite Nat.add_1_r, strip_loop_snoc.
    destruct (Z.eqb_spec d 0) as [E|E].
    + subst d. destruct IH as (k & E1 & E2). exists (S k). split; [|assumption].
      rewrite E1 at 1. rewrite <- app_assoc. f_equal.
      change [0] with (repeat 0 1). rewrite <- repeat_app.
      f_equal. lia.
    + exists 0%nat. cbn [repeat]. rewrite app_nil_r. split; [reflexivity|].
      rewrite last_last. assumption.
Qed.

Lemma value_strip vi : value (BigInt.strip vi) = value vi.
Proof.
  destruct (strip_spec vi) as (k & E & _).
  rewrite E at 2. rewrite value_app, value_repeat0. lia.
Qed.

Lemma digits_strip vi : digits vi -> digits (BigInt.strip vi).
Proof.
  destruct (strip_spec vi) as (k & E & _). intros H.
  rewrite E in H. apply digits_app in H. tauto.
Qed.

Lemma canonical_strip vi : digits vi -> canonical (BigInt.strip vi).
Proof.
  intros H. split; [apply digits_strip, H|].
  destruct (strip_spec vi) as (k & _ & E). exact E.
Qed.

Lemma strip_canonical vi : canonical vi -> BigInt.strip vi = vi.
Proof.
  intros H. apply canonical_unique.
  - apply canonical_strip, H.
  - exact H.
  - apply value_strip.
Qed.

(** ** Construction from a machine integer *)

Lemma of_int_loop_spec fuel : forall n vi,
  n < pow10 fuel ->
  exists ds, BigInt.of_int_loop fuel n vi = vi ++ ds /\
             canonical ds /\ value ds = Z.max 0 n.
Proof.
  induction fuel as [|fuel IH]; intros n vi Hn.
  - rewrite pow10_0 in Hn. exists []. cbn [BigInt.of_int_loop value].
    rewrite app_nil_r. split; [reflexivity|]. split; [apply canonical_nil|lia].
  - cbn [BigInt.of_int_loop]. destruct (Z.ltb_spec 0 n) as [Hpos|Hneg].
    + rewrite pow10_S in Hn.
      rewrite Z.quot_div_nonneg, Z.rem_mod_nonneg by lia.
      pose proof (Z.div_mod n 10 ltac:(lia)) as Hdm.
      pose proof (Z.mod_pos_bound n 10 ltac:(lia)) as Hm.
      destruct (IH (n / 10) (vi ++ [n mod 10])) as (ds & E & Hc & Hv); [lia|].
      exists (n mod 10 :: ds). rewrite E, <- app_assoc. split; [reflexivity|].
      split.
      * apply canonical_cons. split; [unfold digit; lia|]. split; [exact Hc|].

        intros ->. cbn [value] in Hv. lia.
      * cbn [value]. lia.
    + exists []. rewrite app_nil_r. split; [reflexivity|].
      split; [apply canonical_nil|cbn [value]; lia].
Qed.

(** Ten iterations exhaust every [int]. *)
Lemma of_int_loop_exhausts n :
  n <= INT_MAX ->
  canonical (BigInt.of_int n) /\ value (BigInt.of_int n) = Z.max 0 n.
Proof.
  intros Hn. unfold BigInt.of_int.
  destruct (of_int_loop_spec 10 n []) as (ds & E & Hc & Hv).
  - unfold INT_MAX in Hn. unfold pow10. cbn. lia.
  - rewrite E. cbn [app]. auto.
Qed.

Lemma of_int_canonical n : n <= INT_MAX -> canonical (BigInt.of_int n).
Proof. intros H. apply of_int_loop_exhausts, H. Qed.

Lemma of_int_value n : 0 <= n <= INT_MAX -> value (BigInt.of_int n) = n.
Proof.
  intros H. destruct (of_int_loop_exhausts n) as [_ E]; [lia|]. lia.
Qed.

(** ** Addition *)

Section Addition.

Variables vi other : BigInt.t.
Hypothesis Hvi : digits vi.
Hypothesis Hother : digits other.

Variable maxSize : nat.
Hypothesis HmaxSize : maxSize = Nat.max (length vi) (length other).

(** The state of the loop of [operator+] at the head of an iteration. *)
Definition add_inv (result : BigInt.t) (carry : Z) (i : nat) : Prop :=
  digits result /\ length result = i /\ 0 <= carry <= 1 /\
  value result + pow10 i * carry = value (firstn i vi) + value (firstn i other).

Lemma add_loop_spec fuel : forall result carry i,
  add_inv result carry i ->
  ((i <= maxSize)%nat /\ (maxSize + 1 - i <= fuel)%nat) \/
  (i = S maxSize /\ carry = 0 /\ pow10 maxSize <= value result) ->
  exists r, BigInt.add_loop fuel vi other maxSize result carry i = Ret r /\
            digits r /\ value r = value vi + value other /\
            (length r = maxSize \/
             (length r = S maxSize /\ pow10 maxSize <= value r)).
Proof.
  assert (Hmax : (length vi <= maxSize /\ length other <= maxSize)%nat) by lia.
  assert (Hexit : forall result carry i,
    add_inv result carry i ->
    ((i <= maxSize)%nat \/
     (i = S maxSize /\ carry = 0 /\ pow10 maxSize <= value result)) ->
    (i <? maxSize)%nat || negb (carry =? 0) = false ->
    digits result /\ value result = value vi + value other /\
    (length result = maxSize \/
     (length result = S maxSize /\ pow10 maxSize <= value result))).
  { intros result carry i (Hd & Hlen & Hc & Hval) Hcase Hcond.
    apply orb_false_iff in Hcond. destruct Hcond as [Hc1 Hc2].
    apply Nat.ltb_ge in Hc1. apply negb_false_iff, Z.eqb_eq in Hc2.
    rewrite !value_firstn_all in Hval by lia.
    split; [assumption|]. split; [lia|].
    destruct Hcase as [Hi|(Hi & _ & Hlow)]; [left|right]; lia. }
  induction fuel as [|fuel IH]; intros result carry i Hinv Hcase;
    cbn [BigInt.add_loop];
    destruct ((i <? maxSize)%nat || negb (carry =? 0)) eqn:Hcond;
    try (exists result; split; [reflexivity|];
         apply (Hexit result carry i Hinv); [tauto|exact Hcond]).
  - (* no iteration left *)
    exfalso. destruct Hinv as (Hd & Hlen & Hc & Hval).
    destruct Hcase as [[Hi Hf]|(Hi & Hc0 & Hlow)].
    + assert (Ei : i = maxSize) by lia. rewrite Ei, Nat.ltb_irrefl in Hcond.
      cbn [orb] in Hcond. apply negb_true_iff, Z.eqb_neq in Hcond.
      assert (Hc1 : carry = 1) by lia.
      rewrite Ei, !value_firstn_all in Hval by lia. lia.
    + rewrite Hc0 in Hcond. destruct (Nat.ltb_spec i maxSize); [lia|].
      discriminate Hcond.
  - destruct Hinv as (Hd & Hlen & Hc & Hval).
    destruct Hcase as [[Hi Hf]|(Hi & Hc0 & Hlow)].
    2:{ rewrite Hc0 in Hcond. destruct (Nat.ltb_spec i maxSize); [lia|].
        discriminate Hcond. }
    replace (i =? length result)%nat with true
      by (symmetry; apply Nat.eqb_eq; lia).
    rewrite !nth_guard.
    pose proof (digits_nth vi i Hvi) as Ha.
    pose proof (digits_nth other i Hother) as Hb.
    unfold digit in Ha, Hb.
    set (sum := carry + nth i vi 0 + nth i other 0).
    assert (Hsum : 0 <= sum <= 19) by (unfold sum; lia).
    rewrite Z.quot_div_nonneg, Z.rem_mod_nonneg by lia.
    pose proof (Z.div_mod sum 10 ltac:(lia)) as Hdm.
    pose proof (Z.mod_pos_bound sum 10 ltac:(lia)) as Hm.
    assert (Hq : 0 <= sum / 10 <= 1).
    { split; [apply Z.div_pos; lia|].
      apply Z.lt_succ_r, Z.div_lt_upper_bound; lia. }
    rewrite store_in by (rewrite length_app; cbn [length]; lia).
    rewrite bind_Ret.
    replace (update (result ++ [0]) i (sum mod 10)) with (result ++ [sum mod 10])
      by (rewrite <- Hlen; symmetry; apply update_snoc).

    apply IH.
    + split; [apply digits_snoc; split; [assumption|unfold digit; lia]|].
      split; [rewrite length_app; cbn [length]; lia|].
      split; [assumption|].
      rewrite value_snoc, !value_firstn_S, Hlen, pow10_S.
      fold sum in Hdm. unfold sum in Hdm at 1. nia.
    + destruct (Nat.eq_dec i maxSize) as [E|E].
      * right. split; [lia|].
        destruct (Nat.ltb_spec i maxSize); [lia|].
        cbn [orb] in Hcond. apply negb_true_iff, Z.eqb_neq in Hcond.
        assert (carry = 1) by lia.
        assert (nth i vi 0 = 0) by (apply nth_overflow; lia).
        assert (nth i other 0 = 0) by (apply nth_overflow; lia).
        assert (sum = 1) by (unfold sum; lia).
        assert (Hs1 : sum mod 10 = 1) by (replace sum with 1 by lia; reflexivity).
        assert (Hs0 : sum / 10 = 0) by (replace sum with 1 by lia; reflexivity).
        rewrite Hs1, Hs0. split; [reflexivity|].
        rewrite value_snoc, Hlen, E. pose proof (value_nonneg result Hd). lia.

      * left. lia.
Qed.

Lemma add_spec :
  exists r, BigInt.add vi other = Ret r /\ digits r /\
            value r = value vi + value other /\
            (length r = maxSize \/
             (length r = S maxSize /\ pow10 maxSize <= value r)).
Proof.
  unfold BigInt.add. rewrite <- HmaxSize. apply add_loop_spec.
  - split; [apply digits_nil|]. split; [reflexivity|]. split; [lia|].
    cbn [firstn value]. lia.
  - left. lia.
Qed.

End Addition.

Lemma add_value a b :
  digits a -> digits b ->
  exists r, BigInt.add a b = Ret r /\ digits r /\ value r = value a + value b.
Proof.
  intros Ha Hb. destruct (add_spec a b Ha Hb _ eq_refl) as (r & E & Hd & Hv & _).
  exists r. auto.
Qed.

(** The sum of two canonical values is canonical. *)
Lemma add_canonical a b :
  canonical a -> canonical b ->
  exists r, BigInt.add a b = Ret r /\ canonical r /\ value r = value a + value b.
Proof.
  intros Ha Hb.
  destruct (add_spec a b (canonical_digits a Ha) (canonical_digits b Hb) _ eq_refl)
    as (r & E & Hd & Hv & Hlen).

  exists r. split; [exact E|]. split; [|exact Hv].
  apply canonical_of_bound; [exact Hd|].
  destruct Hlen as [Hlen|[Hlen Hlow]].
  - destruct r as [|d r]; [left; reflexivity|right].
    rewrite Hlen.
    pose proof (value_nonneg a (canonical_digits a Ha)).
    pose proof (value_nonneg b (canonical_digits b Hb)).
    cbn [length] in Hlen.
    destruct (Nat.max_spec (length a) (length b)) as [[_ Em]|[_ Em]]; rewrite Em in *.
    + assert (b <> []) by (intros ->; cbn [length] in Hlen; lia).
      pose proof (canonical_lower' b Hb ltac:(assumption)). lia.
    + assert (a <> []) by (intros ->; cbn [length] in Hlen; lia).
      pose proof (canonical_lower' a Ha ltac:(assumption)). lia.
  - right. rewrite Hlen. replace (S (Nat.max (length a) (length b)) - 1)%nat
      with (Nat.max (length a) (length b)) by lia. exact Hlow.
Qed.

(** ** Subtraction *)

Section Subtraction.

Variables vi other : BigInt.t.
Hypothesis Hvi : digits vi.
Hypothesis Hother : digits other.

(** The state of the loop of [operator-] at the head of an iteration. *)
Definition sub_inv (result : BigInt.t) (borrow : Z) (i : nat) : Prop :=
  digits result /\ length result = i /\ 0 <= borrow <= 1 /\
  value result - pow10 i * borrow =
  value (firstn i vi) - value (firstn i other).

Lemma sub_loop_spec n : forall result borrow i,
  sub_inv result borrow i ->
  exists borrow',
    sub_inv (BigInt.sub_loop n vi other result borrow i) borrow' (i + n).
Proof.
  induction n as [|n IH]; intros result borrow i Hinv.
  - exists borrow. cbn [BigInt.sub_loop]. rewrite Nat.add_0_r. exact Hinv.
  - destruct Hinv as (Hd & Hlen & Hb & Hval).
    cbn [BigInt.sub_loop]. rewrite nth_guard.
    pose proof (digits_nth vi i Hvi) as Ha.
    pose proof (digits_nth other i Hother) as Ho.
    unfold digit in Ha, Ho.
    replace (i + S n)%nat with (S i + n)%nat by lia.
    destruct (Z.ltb_spec (nth i vi 0 - borrow - nth i other 0) 0) as [Hneg|Hpos];
      rewrite to_char_id by lia; apply IH.
    + split; [apply digits_snoc; split; [assumption|unfold digit; lia]|].
      split; [rewrite length_app; cbn [length]; lia|].
      split; [lia|].
      rewrite value_snoc, !value_firstn_S, Hlen, pow10_S. lia.
    + split; [apply digits_snoc; split; [assumption|unfold digit; lia]|].
      split; [rewrite length_app; cbn [length]; lia|].
      split; [lia|].
      rewrite value_snoc, !value_firstn_S, Hlen, pow10_S. lia.
Qed.

(** Whatever the operands, the difference is in canonical form. *)
Lemma sub_canonical : canonical (BigInt.sub vi other).
Proof.
  unfold BigInt.sub. apply canonical_strip.
  destruct (sub_loop_spec (length vi) [] 0 0%nat) as (b & Hd & _).
  - split; [apply digits_nil|]. split; [reflexivity|]. split; [lia|].
    cbn [firstn value]. lia.
  - exact Hd.
Qed.

(** With a left operand at least as large as the right one, no borrow is
    left at the end and the difference is exact. *)
Lemma sub_value :
  value other <= value vi ->
  value (BigInt.sub vi other) = value vi - value other.
Proof.
  intros Hle. unfold BigInt.sub. rewrite value_strip.
  destruct (sub_loop_spec (length vi) [] 0 0%nat) as (b & Hd & Hlen & Hb & Hval).
  - split; [apply digits_nil|]. split; [reflexivity|]. split; [lia|].
    cbn [firstn value]. lia.
  - cbn [Nat.add] in *.
    rewrite value_firstn_all in Hval by lia.
    pose proof (value_bound vi Hvi) as Hbv.
    rewrite (value_firstn_small other) in Hval by (assumption || lia).
    pose proof (value_bound _ Hd) as Hbr. rewrite Hlen in Hbr.
    pose proof (pow10_pos (length vi)).
    assert (b = 0) by nia. subst b. lia.
Qed.

End Subtraction.

(** ** Multiplication *)

Lemma skipn_S_eq (a b : list Z) k :
  skipn k a = skipn k b -> skipn (S k) a = skipn (S k) b.
Proof.
  intros E. change (S k) with (1 + k)%nat.
  rewrite <- !skipn_skipn, E. reflexivity.
Qed.

Lemma value_skipn_zero vi k :
  digits vi -> value vi < pow10 k -> value (skipn k vi) = 0.
Proof.
  intros Hd Hlt.
  destruct (Nat.lt_ge_cases k (length vi)) as [Hk|Hk].
  2:{ rewrite skipn_all2 by assumption. reflexivity. }
  pose proof (firstn_skipn k vi) as E.
  rewrite <- E in Hlt. rewrite value_app in Hlt.
  rewrite length_firstn, Nat.min_l in Hlt by lia.
  pose proof (value_nonneg _ (digits_firstn _ k Hd)).
  pose proof (value_nonneg _ (digits_skipn _ k Hd)).
  pose proof (pow10_pos k). nia.
Qed.

Lemma nth_zero_above vi k :
  digits vi -> value vi < pow10 k -> nth k vi 0 = 0.
Proof.
  intros Hd Hlt. pose proof (value_skipn_zero vi k Hd Hlt) as Hz.
  pose proof (digits_skipn vi k Hd) as Hds.
  rewrite nth_skipn_0. destruct (skipn k vi) as [|e l]; [reflexivity|].
  apply digits_cons in Hds. destruct Hds as [He Hl].
  apply value_nonneg in Hl. cbn [value] in Hz. cbn [nth].
  unfold digit in He. lia.
Qed.

Section MultiplicationRow.

(** One pass of the inner loop of [operator*]: the digit [vi_i] of the left
    operand, at position [i], against the whole right operand; [result0]
    is the buffer when the pass starts. *)
Variables (vi_i : Z) (other : BigInt.t) (i : nat) (result0 : BigInt.t).
Hypothesis Hvi_i : digit vi_i.
Hypothesis Hother : digits other.
Hypothesis Hresult0 : digits result0.
Hypothesis Hroom : (i + length other < length result0)%nat.
Hypothesis Hsmall : value result0 < pow10 (i + length other).

Definition mul_inv (result : BigInt.t) (carry : Z) (j : nat) : Prop :=
  digits result /\ length result = length result0 /\ 0 <= carry <= 9 /\
  value result + pow10 (i + j) * carry =
    value result0 + pow10 i * vi_i * value (firstn j other) /\
  skipn (i + j) result = skipn (i + j) result0 /\
  (j <= S (length other))%nat /\
  (j = S (length other) -> carry = 0).

Lemma mul_inner_spec fuel : forall result carry j,
  mul_inv result carry j ->
  (S (length other) <= fuel + j)%nat ->
  exists r, BigInt.mul_inner fuel vi_i other i result carry j = Ret r /\
            digits r /\ length r = length result0 /\
            value r = value result0 + pow10 i * vi_i * value other.
Proof.
  induction fuel as [|fuel IH];
    intros result carry j (Hd & Hlen & Hc & Hval & Hskip & Hj & Hlast) Hfuel;
    cbn [BigInt.mul_inner];
    destruct ((j <? length other)%nat || negb (carry =? 0)) eqn:Hcond.
  2,4: (* the loop is over *)
    apply orb_false_iff in Hcond; destruct Hcond as [Hc1 Hc2];
    apply Nat.ltb_ge in Hc1; apply negb_false_iff, Z.eqb_eq in Hc2;
    exists result; rewrite value_firstn_all in Hval by lia;
    repeat split; try assumption; lia.
  - (* no iteration left *)

    exfalso. assert (Ej : j = S (length other)) by lia.
    specialize (Hlast Ej). rewrite Hlast in Hcond.
    destruct (Nat.ltb_spec j (length other)); [lia|]. discriminate Hcond.
  - assert (Hjm : (j <= length other)%nat).
    { destruct (Nat.eq_dec j (S (length other))) as [Ej|]; [|lia].
      specialize (Hlast Ej). rewrite Hlast in Hcond.
      destruct (Nat.ltb_spec j (length other)); [lia|]. discriminate Hcond. }
    rewrite load_in by lia. rewrite bind_Ret, nth_guard.
    pose proof (digits_nth result (i + j) Hd) as Hr.
    pose proof (digits_nth other j Hother) as Ho.
    unfold digit in Hr, Ho, Hvi_i.
    set (r := nth (i + j) result 0) in *.
    set (o := nth j other 0) in *.
    set (sum := r + carry + vi_i * o).
    assert (Hsum : 0 <= sum <= 99) by (unfold sum; nia).
    rewrite Z.quot_div_nonneg, Z.rem_mod_nonneg by lia.
    pose proof (Z.div_mod sum 10 ltac:(lia)) as Hdm.
    pose proof (Z.mod_pos_bound sum 10 ltac:(lia)) as Hm.
    assert (Hq : 0 <= sum / 10 <= 9).
    { split; [apply Z.div_pos; lia|].
      apply Z.lt_succ_r, Z.div_lt_upper_bound; lia. }
    rewrite store_in by lia. rewrite bind_Ret.
    apply IH; [|lia].
    split; [apply digits_update; [assumption|unfold digit; lia]|].
    split; [rewrite length_update; assumption|].
    split; [assumption|].
    split.
    { rewrite value_update by lia. fold r.
      rewrite value_firstn_S. fold o.
      replace (i + S j)%nat with (S (i + j)) by lia.
      rewrite pow10_S. rewrite pow10_add in *.
      unfold sum in Hdm at 1. nia. }
    split.
    { replace (i + S j)%nat with (S (i + j)) by lia.
      rewrite skipn_update_above by lia. apply skipn_S_eq, Hskip. }
    split; [lia|].
    intros Ej. assert (Ejm : j = length other) by lia.
    assert (Eo : o = 0) by (unfold o; apply nth_overflow; lia).
    assert (Er : r = 0).
    { unfold r. rewrite nth_skipn_0, Hskip, <- nth_skipn_0, Ejm.
      apply nth_zero_above; assumption. }
    assert (Es : sum = carry) by (unfold sum; lia).
    rewrite Es. apply Z.div_small. lia.
Qed.

End MultiplicationRow.

Section Multiplication.

Variables vi other : BigInt.t.
Hypothesis Hvi : digits vi.
Hypothesis Hother : digits other.

(** The buffer of [operator*] before the pass for the digit at [i]: it
    holds the product of the first [i] digits of [vi] by [other]. *)
Definition mul_outer_inv (result : BigInt.t) (i : nat) : Prop :=
  digits result /\ length result = (length vi + length other)%nat /\
  value result = value (firstn i vi) * value other.

Lemma mul_outer_spec n : forall result i,
  mul_outer_inv result i ->
  (i + n = length vi)%nat ->
  exists r, BigInt.mul_outer n vi other result i = Ret r /\
            digits r /\ value r = value vi * value other.
Proof.
  induction n as [|n IH]; intros result i (Hd & Hlen & Hval) Hin;
    cbn [BigInt.mul_outer].
  - exists result. rewrite value_firstn_all in Hval by lia. auto.
  - pose proof (value_bound _ (digits_firstn vi i Hvi)) as Hb1.
    pose proof (value_bound _ Hother) as Hb2.
    assert (Hp : pow10 (length (firstn i vi)) <= pow10 i)
      by (apply pow10_le; rewrite length_firstn; lia).
    destruct (mul_inner_spec (nth i vi 0) other i result) with
      (fuel := (length result + 1)%nat) (result := result) (carry := 0) (j := 0%nat)
      as (r & E & Hdr & Hlr & Hvr).
    + apply digits_nth, Hvi.
    + assumption.
    + assumption.
    + lia.
    + rewrite Hval, pow10_add. nia.
    + split; [assumption|]. split; [reflexivity|]. split; [lia|].
      split; [cbn [firstn value]; lia|]. split; [reflexivity|]. split; lia.
    + lia.
    + rewrite E, bind_Ret. apply IH; [|lia].
      split; [assumption|]. split; [lia|].
      rewrite Hvr, Hval, value_firstn_S. ring.
Qed.

(** The product is exact, in bounds and in canonical form. *)
Lemma mul_spec :
  exists r, BigInt.mul vi other = Ret r /\ canonical r /\
            value r = value vi * value other.
Proof.
  unfold BigInt.mul.
  destruct (mul_outer_spec (length vi) (repeat 0 (length vi + length other)) 0%nat)
    as (r & E & Hd & Hv).
  - split; [apply digits_repeat0|]. split; [apply repeat_length|].
    rewrite value_repeat0. cbn [firstn value]. lia.
  - reflexivity.
  - rewrite E, bind_Ret. exists (BigInt.strip r).
    split; [reflexivity|]. split; [apply canonical_strip, Hd|].
    rewrite value_strip. exact Hv.
Qed.

End Multiplication.

(** ** Comparisons *)

Lemma eqb_eq a b : BigInt.eqb a b = true <-> a = b.
Proof.
  revert b. induction a as [|d a IH]; intros [|e b]; cbn [BigInt.eqb];
    try (split; [discriminate|discriminate]);
    try (split; reflexivity).
  rewrite andb_true_iff, Z.eqb_eq, IH. split.
  - intros [-> ->]. reflexivity.
  - intros E. injection E as -> ->. auto.
Qed.

Lemma eqb_refl a : BigInt.eqb a a = true.
Proof. apply eqb_eq. reflexivity. Qed.

Lemma eqb_neq a b : BigInt.eqb a b = false <-> a <> b.
Proof.
  rewrite <- eqb_eq. destruct (BigInt.eqb a b); split; congruence.
Qed.

(** The loop of [operator<=] orders the first [i] digits of both operands
    by their value. *)
Lemma leb_loop_spec a b : digits a -> digits b -> forall i,
  BigInt.leb_loop i a b = true <-> value (firstn i a) <= value (firstn i b).
Proof.
  intros Ha Hb. induction i as [|i IH]; cbn [BigInt.leb_loop].
  - cbn [firstn value]. split; [lia|reflexivity].
  - rewrite !value_firstn_S.
    pose proof (digits_nth a i Ha) as Hda. pose proof (digits_nth b i Hb) as Hdb.
    unfold digit in Hda, Hdb.
    pose proof (value_bound _ (digits_firstn a i Ha)) as Hba.
    pose proof (value_bound _ (digits_firstn b i Hb)) as Hbb.
    assert (Hpa : pow10 (length (firstn i a)) <= pow10 i)
      by (apply pow10_le; rewrite length_firstn; lia).
    assert (Hpb : pow10 (length (firstn i b)) <= pow10 i)
      by (apply pow10_le; rewrite length_firstn; lia).
    destruct (Z.eqb_spec (nth i a 0) (nth i b 0)) as [E|E]; cbn [negb].
    + rewrite IH, E. lia.
    + rewrite Z.ltb_lt. nia.
Qed.

(** The loop of [operator<=] returns at the first position, from the most
    significant one, where the operands differ. *)
Lemma leb_loop_first_mismatch a b k : forall i,
  (k < i)%nat ->
  (forall j, (k < j < i)%nat -> nth j a 0 = nth j b 0) ->
  nth k a 0 <> nth k b 0 ->
  BigInt.leb_loop i a b = (nth k a 0 <? nth k b 0).
Proof.
  induction i as [|i IH]; intros Hk Hsame Hdiff; [lia|].
  cbn [BigInt.leb_loop]. destruct (Nat.eq_dec k i) as [->|Hne].
  - apply Z.eqb_neq in Hdiff. rewrite Hdiff. reflexivity.
  - rewrite (Hsame i) by lia. rewrite Z.eqb_refl. cbn [negb].
    apply IH; [lia| |exact Hdiff].
    intros j Hj. apply Hsame. lia.
Qed.

(** [operator<=] decides the order of the values as soon as its left
    operand is canonical and its right operand has no more digits than its
    value needs, or is the single digit zero. *)
Lemma leb_spec a b :
  canonical a -> canonical b \/ b = [0] ->
  BigInt.leb a b = true <-> value a <= value b.
Proof.
  intros Ha Hb. unfold BigInt.leb.
  pose proof (canonical_digits a Ha) as Hda.
  assert (Hdb : digits b).
  { destruct Hb as [Hb| ->]; [apply canonical_digits, Hb|].
    apply digits_cons. split; [unfold digit; lia|apply digits_nil]. }
  pose proof (value_bound a Hda) as Hba. pose proof (value_bound b Hdb) as Hbb.
  destruct (Nat.eqb_spec (length a) (length b)) as [E|E]; cbn [negb].
  - rewrite leb_loop_spec by assumption.
    rewrite value_firstn_all by lia. rewrite value_firstn_all by lia. reflexivity.
  - rewrite Nat.ltb_lt. split.
    + intros Hlt. destruct Hb as [Hb| ->].
      * assert (b <> []) by (intros ->; cbn [length] in Hlt; lia).
        pose proof (canonical_lower' b Hb ltac:(assumption)) as Hlow.
        assert (pow10 (length a) <= pow10 (length b - 1)) by (apply pow10_le; lia).
        lia.
      * cbn [length] in Hlt. assert (length a = 0)%nat as E0 by lia.
        apply length_zero_iff_nil in E0. subst a. cbn [value]. lia.
    + intros Hle. pose proof (canonical_length_le a b Ha Hdb Hle). lia.
Qed.

(** ** Division and modulo *)

Lemma of_int_0 : BigInt.of_int 0 = [].
Proof. reflexivity. Qed.

Section Division.

Variable other : BigInt.t.
Hypothesis Hother : digits other.
Hypothesis Hnonzero : 0 < value other.

(** The running remainder once a digit of the dividend has been brought
    down in front of it. *)
Definition brought_down (current : BigInt.t) : Prop :=
  (canonical current \/ current = [0]) /\ value current < 10 * value other.

(** The test of the binary search. *)
Lemma search_test current m :
  canonical current \/ current = [0] -> 0 <= m <= 10 ->
  exists p, BigInt.mul other (BigInt.of_int m) = Ret p /\
            (BigInt.leb p current = true <-> value other * m <= value current).
Proof.
  intros Hcur Hm.
  assert (Hmi : m <= INT_MAX) by (unfold INT_MAX; lia).
  destruct (mul_spec other (BigInt.of_int m) Hother
              (canonical_digits _ (of_int_canonical m Hmi))) as (p & E & Hc & Hv).
  exists p. split; [exact E|].
  rewrite leb_spec by assumption.
  rewrite Hv, of_int_value by (unfold INT_MAX; lia). reflexivity.
Qed.

(** The binary search keeps [x] as the largest digit tried with success,
    [l] just above it, and [r] just below the smallest digit that failed. *)
Lemma search_loop_spec current : brought_down current ->
  forall fuel x l r,
  0 <= l <= r + 1 -> r <= 10 -> (x = l - 1 \/ (l = 0 /\ x = 0)) ->
  value other * x <= value current < value other * (r + 1) ->
  r - l + 1 <= Z.of_nat fuel ->
  exists x', BigInt.search_loop fuel other current x l r = Ret x' /\
             0 <= x' <= 9 /\
             value other * x' <= value current < value other * (x' + 1).
Proof.
  intros [Hcur Hlt].
  assert (Hpos : 0 <= value current).
  { destruct Hcur as [Hc| ->]; [apply value_nonneg, canonical_digits, Hc|].
    cbn [value]. lia. }
  induction fuel as [|fuel IH]; intros x l r Hl Hr Hx Hv Hf;
    cbn [BigInt.search_loop]; destruct (Z.leb_spec l r) as [Hlr|Hlr].
  2,4: (exists x; split; [reflexivity|];
        assert (l = r + 1) by lia; destruct Hx as [Hx|[Hx1 Hx2]]; split; nia).

  - lia.
  - rewrite Z.quot_div_nonneg by lia.
    assert (Hm : l <= (l + r) / 2 <= r).
    { split; [apply Z.div_le_lower_bound|apply Z.div_le_upper_bound]; lia. }
    destruct (search_test current ((l + r) / 2) Hcur ltac:(lia)) as (p & E & Hp).
    rewrite E, bind_Ret.
    destruct (BigInt.leb p current) eqn:Hleb.
    + assert (value other * ((l + r) / 2) <= value current)
        by (apply Hp; reflexivity).
      apply IH; lia.
    + assert (value current < value other * ((l + r) / 2 - 1 + 1)).
      { replace ((l + r) / 2 - 1 + 1) with ((l + r) / 2) by lia.
        destruct (Z.le_gt_cases (value other * ((l + r) / 2)) (value current))
          as [Hle|Hgt]; [|lia].
        apply Hp in Hle. congruence. }
      apply IH; lia.
Qed.

(** The quotient digit found is the largest [x] with
    [other * x <= current]. *)
Lemma search_spec current : brought_down current ->
  exists x, BigInt.search other current = Ret x /\ 0 <= x <= 9 /\
            value other * x <= value current < value other * (x + 1).
Proof.
  intros Hb. unfold BigInt.search.
  apply search_loop_spec; try assumption; try lia.
  destruct Hb as [Hcur Hlt].
  assert (0 <= value current).
  { destruct Hcur as [Hc| ->]; [apply value_nonneg, canonical_digits, Hc|].
    cbn [value]. lia. }
  lia.
Qed.

(** One step of the long division: bring a digit down, find the quotient
    digit, subtract. *)
Lemma division_step current d :
  canonical current -> value current < value other -> digit d ->
  exists x p, BigInt.search other (d :: current) = Ret x /\
              BigInt.mul other (BigInt.of_int x) = Ret p /\
              0 <= x <= 9 /\
              canonical (BigInt.sub (d :: current) p) /\
              value (BigInt.sub (d :: current) p) < value other /\
              d + 10 * value current =
                value other * x + value (BigInt.sub (d :: current) p).
Proof.
  intros Hc Hlt Hd.
  assert (Hdc : digits (d :: current))
    by (apply digits_cons; split; [assumption|apply canonical_digits, Hc]).
  assert (Hb : brought_down (d :: current)).
  { split.
    - destruct current as [|e current].
      + destruct (Z.eq_dec d 0) as [->|Hnz]; [right; reflexivity|left].
        apply canonical_cons. split; [assumption|]. split; [exact Hc|]. auto.
      + left. apply canonical_cons. split; [assumption|]. split; [exact Hc|].
        discriminate.
    - cbn [value]. unfold digit in Hd. lia. }
  destruct (search_spec _ Hb) as (x & Ex & Hx & Hv).
  assert (Hxi : x <= INT_MAX) by (unfold INT_MAX; lia).
  destruct (mul_spec other (BigInt.of_int x) Hother
              (canonical_digits _ (of_int_canonical x Hxi))) as (p & Ep & Hcp & Hvp).
  rewrite of_int_value in Hvp by (unfold INT_MAX; lia).
  exists x, p. split; [exact Ex|]. split; [exact Ep|]. split; [exact Hx|].
  pose proof (canonical_digits p Hcp) as Hdp.
  split; [apply sub_canonical; assumption|].
  rewrite sub_value by (assumption || lia).
  cbn [value] in *. lia.
Qed.

Variable vi : BigInt.t.
Hypothesis Hvi : digits vi.

Lemma div_loop_spec i : forall result current,
  (i <= length vi)%nat -> digits result ->
  canonical current -> value current < value other ->
  value (skipn i vi) = value other * value result + value current ->
  exists q r, BigInt.div_loop i vi other result current = Ret (q, r) /\
              digits q /\ canonical r /\ value r < value other /\
              value vi = value other * value q + value r.
Proof.
  induction i as [|i IH]; intros result current Hi Hres Hc Hlt Hval;
    cbn [BigInt.div_loop].
  - exists result, current. cbn [skipn] in Hval. auto.
  - destruct (division_step current (nth i vi 0) Hc Hlt (digits_nth vi i Hvi))
      as (x & p & Ex & Ep & Hx & Hcs & Hvs & Hstep).
    rewrite Ex, bind_Ret, Ep, bind_Ret.
    apply IH; try assumption; try lia.
    + apply digits_cons. split; [exact Hx|assumption].
    + rewrite value_skipn_S by lia. cbn [value]. lia.
Qed.

(** [operator%] runs the loop of [operator/] without the quotient. *)
Lemma mod_loop_div_loop i : forall result current,
  BigInt.mod_loop i vi other current =
  (rc <- BigInt.div_loop i vi other result current ;; Ret (snd rc)).
Proof.
  induction i as [|i IH]; intros result current;
    cbn [BigInt.mod_loop BigInt.div_loop].
  - reflexivity.
  - destruct (BigInt.search other (nth i vi 0 :: current)) as [x| | |];
      cbn [bind]; try reflexivity.
    destruct (BigInt.mul other (BigInt.of_int x)) as [p| | |];
      cbn [bind]; try reflexivity.
    apply IH.
Qed.

(** Division and modulo return the quotient and the remainder of the
    Euclidean division of the values. *)
Lemma div_mod_spec :
  exists q r, BigInt.div vi other = Ret q /\ BigInt.modulo vi other = Ret r /\
              canonical q /\ canonical r /\
              value vi = value other * value q + value r /\
              0 <= value r < value other.
Proof.
  assert (Hne : BigInt.eqb other (BigInt.of_int 0) = false).
  { apply eqb_neq. rewrite of_int_0. intros ->. cbn [value] in Hnonzero. lia. }
  unfold BigInt.div, BigInt.modulo. rewrite Hne.
  rewrite (mod_loop_div_loop (length vi) [] []).
  destruct (div_loop_spec (length vi) [] []) as (q & r & E & Hq & Hr & Hlt & Hv).
  - lia.
  - apply digits_nil.
  - apply canonical_nil.
  - cbn [value]. lia.
  - rewrite skipn_all. cbn [value]. lia.
  - rewrite E, !bind_Ret. cbn [fst snd].
    exists (BigInt.strip q), r.
    split; [reflexivity|]. split; [reflexivity|].
    split; [apply canonical_strip, Hq|]. split; [exact Hr|].
    rewrite value_strip. split; [exact Hv|].
    split; [apply value_nonneg, canonical_digits, Hr|exact Hlt].
Qed.

End Division.

(** ** Factorial *)

Lemma factorial_step k : 1 <= k -> factorial k = factorial (k - 1) * k.
Proof.
  intros Hk. unfold factorial.
  replace (Z.to_nat k) with (S (Z.to_nat (k - 1))) by lia.
  change (Factorial.fact (S (Z.to_nat (k - 1))))
    with (S (Z.to_nat (k - 1)) * Factorial.fact (Z.to_nat (k - 1)))%nat.
  rewrite Nat2Z.inj_mul, Nat2Z.inj_succ, Z2Nat.id by lia. ring.
Qed.

Section FactorialLoop.

Variable this : BigInt.t.
Hypothesis Hthis : canonical this.

(** The state of the loop of [fact] at the head of an iteration. *)
Definition fact_inv (result i : BigInt.t) : Prop :=
  canonical result /\ canonical i /\ 2 <= value i /\
  value result = factorial (value i - 1) /\
  (value i <= value this + 1 \/ value i = 2).

Lemma fact_loop_spec fuel : forall result i,
  fact_inv result i ->
  value this + 1 <= Z.of_nat fuel + value i ->
  exists r, BigInt.fact_loop fuel this result i = Ret r /\
            canonical r /\ value r = factorial (value this).
Proof.
  pose proof (value_nonneg this (canonical_digits _ Hthis)) as Hn.
  induction fuel as [|fuel IH]; intros result i (Hr & Hi & Hi2 & Hv & Hcase) Hf;
    cbn [BigInt.fact_loop]; destruct (BigInt.leb i this) eqn:Hleb.
  2,4: (apply not_true_iff_false in Hleb; rewrite leb_spec in Hleb by auto;
        exists result; split; [reflexivity|]; split; [exact Hr|];
        rewrite Hv; destruct Hcase as [Hcase|Hcase];
        [ f_equal; lia
        | assert (value this = 0 \/ value this = 1) as [-> | ->] by lia;
          rewrite Hcase; reflexivity ]).
  - apply leb_spec in Hleb; auto. lia.
  - apply leb_spec in Hleb; auto.
    destruct (mul_spec result i (canonical_digits _ Hr) (canonical_digits _ Hi))
      as (p & Ep & Hcp & Hvp).
    destruct (add_canonical i (BigInt.of_int 1) Hi) as (i' & Ei & Hci & Hvi).
    { apply of_int_canonical. unfold INT_MAX. lia. }
    rewrite of_int_value in Hvi by (unfold INT_MAX; lia).
    rewrite Ep, bind_Ret, Ei, bind_Ret.
    apply IH; [|lia].
    split; [exact Hcp|]. split; [exact Hci|]. split; [lia|].
    split; [|left; lia].
    rewrite Hvp, Hv, Hvi. replace (value i + 1 - 1) with (value i) by lia.
    symmetry. apply factorial_step. lia.
Qed.

(** [fact] of a canonical receiver returns, in canonical form, the
    factorial of its value. *)
Lemma fact_spec :
  exists r, BigInt.fact this = Ret r /\ canonical r /\
            value r = factorial (value this).
Proof.
  unfold BigInt.fact. apply fact_loop_spec.
  - split; [apply of_int_canonical; unfold INT_MAX; lia|].
    split; [apply of_int_canonical; unfold INT_MAX; lia|].
    split; [cbn; lia|]. split; [reflexivity|]. right. reflexivity.
  - pose proof (value_bound this (canonical_digits _ Hthis)) as Hb.
    unfold pow10 in Hb. rewrite Nat2Z.inj_pow.
    change (value (BigInt.of_int 2)) with 2. change (Z.of_nat 10) with 10. lia.
Qed.

End FactorialLoop.

(** ** Printing and reading back *)

Lemma print_int_digit d :
  digit d -> BigInt.print_int d = String (digit_ascii d) EmptyString.
Proof.
  unfold digit. intros H.
  assert (d = 0 \/ d = 1 \/ d = 2 \/ d = 3 \/ d = 4 \/
          d = 5 \/ d = 6 \/ d = 7 \/ d = 8 \/ d = 9) as Hd by lia.
  repeat (destruct Hd as [->|Hd]; [reflexivity|]). subst d. reflexivity.
Qed.

(** Reading the character of a digit gives the digit back. *)
Lemma read_digit_ascii d :
  digit d -> to_char (char_of_ascii (digit_ascii d) - 48) = d.
Proof.
  unfold digit. intros H.
  assert (d = 0 \/ d = 1 \/ d = 2 \/ d = 3 \/ d = 4 \/
          d = 5 \/ d = 6 \/ d = 7 \/ d = 8 \/ d = 9) as Hd by lia.
  repeat (destruct Hd as [->|Hd]; [reflexivity|]). subst d. reflexivity.
Qed.

Lemma list_ascii_of_string_app s1 s2 :
  list_ascii_of_string (String.append s1 s2) =
  list_ascii_of_string s1 ++ list_ascii_of_string s2.
Proof.
  induction s1 as [|c s1 IH]; [reflexivity|].
  cbn [String.append list_ascii_of_string app]. rewrite IH. reflexivity.
Qed.

Lemma length_list_ascii s : length (list_ascii_of_string s) = String.length s.
Proof.
  induction s as [|c s IH]; [reflexivity|].
  cbn [list_ascii_of_string length String.length]. rewrite IH. reflexivity.
Qed.

Lemma firstn_S_snoc {A : Type} (l : list A) i d :
  (i < length l)%nat -> firstn (S i) l = firstn i l ++ [nth i l d].
Proof.
  revert i. induction l as [|x l IH]; intros i Hi; cbn [length] in Hi; [lia|].
  destruct i as [|i]; [reflexivity|].
  rewrite !firstn_cons. cbn [nth app]. rewrite (IH i) by lia. reflexivity.
Qed.

(** The text written by the loop of [print]: the first [i] digits, most
    significant first, after what the stream already holds. *)
Lemma print_loop_spec vi : digits vi -> forall i out,
  (i <= length vi)%nat ->
  list_ascii_of_string (BigInt.print_loop i vi out) =
  list_ascii_of_string out ++ map digit_ascii (rev (firstn i vi)).
Proof.
  intros Hd. induction i as [|i IH]; intros out Hi; cbn [BigInt.print_loop].
  - cbn [firstn rev map]. rewrite app_nil_r. reflexivity.
  - rewrite IH by lia. rewrite list_ascii_of_string_app.
    rewrite print_int_digit by (apply digits_nth, Hd).
    rewrite (firstn_S_snoc vi i 0) by lia.
    rewrite rev_app_distr. cbn [rev app map list_ascii_of_string].
    rewrite <- app_assoc. reflexivity.
Qed.

(** The digits pushed by the loop of [BigInt(string)]: the first [i]
    characters, last first, after the digits already there. *)
Lemma of_string_loop_spec s : forall i vi,
  (i <= String.length s)%nat ->
  BigInt.of_string_loop i s vi =
  vi ++ map (fun c => to_char (char_of_ascii c - 48))
            (rev (firstn i (list_ascii_of_string s))).
Proof.
  induction i as [|i IH]; intros vi Hi; cbn [BigInt.of_string_loop].
  - cbn [firstn rev map]. rewrite app_nil_r. reflexivity.
  - rewrite IH by lia. rewrite <- length_list_ascii in Hi.
    rewrite (firstn_S_snoc (list_ascii_of_string s) i zero) by lia.
    rewrite rev_app_distr. cbn [rev app map]. unfold BigInt.char_at.
    rewrite <- app_assoc. reflexivity.
Qed.

Lemma print_spec vi :
  digits vi ->
  list_ascii_of_string (BigInt.print vi) = map digit_ascii (rev vi).
Proof.
  intros Hd. unfold BigInt.print. rewrite print_loop_spec by (assumption || lia).
  rewrite firstn_all. reflexivity.
Qed.

Lemma of_string_spec s :
  BigInt.of_string s =
  map (fun c => to_char (char_of_ascii c - 48)) (rev (list_ascii_of_string s)).
Proof.
  unfold BigInt.of_string. rewrite of_string_loop_spec by lia.
  rewrite <- length_list_ascii, firstn_all. reflexivity.
Qed.

Lemma of_string_print vi : digits vi -> BigInt.of_string (BigInt.print vi) = vi.
Proof.
  intros Hd. rewrite of_string_spec, print_spec by assumption.
  rewrite <- map_rev, rev_involutive, map_map.
  induction vi as [|d vi IH]; [reflexivity|].
  apply digits_cons in Hd. destruct Hd as [Hd Hv].
  cbn [map]. rewrite read_digit_ascii by assumption. rewrite IH by assumption.
  reflexivity.
Qed.

(** [operator<=] with a canonical left operand below a right operand that
    may carry leading zeros. *)
Lemma leb_canonical_left a b :
  canonical a -> digits b -> value a <= value b -> BigInt.leb a b = true.
Proof.
  intros Ha Hb Hle. unfold BigInt.leb.
  pose proof (canonical_length_le a b Ha Hb Hle) as Hlen.
  destruct (Nat.eqb_spec (length a) (length b)) as [E|E]; cbn [negb].
  - apply leb_loop_spec; [apply canonical_digits, Ha|exact Hb|].
    rewrite value_firstn_all by lia. rewrite value_firstn_all by lia. exact Hle.
  - apply Nat.ltb_lt. lia.
Qed.

Lemma digits_of_list (vi : BigInt.t) : digitsb vi = true -> digits vi.
Proof. apply digitsb_spec. Qed.

Lemma canonical_of_list (vi : BigInt.t) : canonicalb vi = true -> canonical vi.
Proof. apply canonicalb_spec. Qed.

(** * The specification, claim by claim *)

(** C1 (division and modulo are the Euclidean division of the values).
    For every dividend [a] and every divisor [b] of non-zero value,
    [a / b] and [a % b] return a quotient [q] and a remainder [r] with
    [value a = value b * value q + value r] and [0 <= value r < value b];
    [r <= b] holds and [r == b] does not (the inequality is strict, for
    [b] equal to one as well); and [q * b + r == a] for a canonical [a]. *)
Theorem C1_div_mod_euclid (a b : BigInt.t) :
  digits a -> digits b -> value b <> 0 ->
  exists q r,
    BigInt.div a b = Ret q /\ BigInt.modulo a b = Ret r /\
    value a = value b * value q + value r /\
    0 <= value r < value b /\
    BigInt.leb r b = true /\ BigInt.eqb r b = false /\
    exists p s, BigInt.mul q b = Ret p /\ BigInt.add p r = Ret s /\
                value s = value a /\
                (canonical a -> BigInt.eqb s a = true).
Proof.
  intros Ha Hb Hnz.
  assert (Hpos : 0 < value b) by (pose proof (value_nonneg b Hb); lia).
  destruct (div_mod_spec b Hb Hpos a Ha) as (q & r & Eq & Er & Hq & Hr & Hv & Hlt).
  exists q, r. split; [exact Eq|]. split; [exact Er|].
  split; [exact Hv|]. split; [exact Hlt|].
  split; [apply leb_canonical_left; (assumption || lia)|].
  split; [apply eqb_neq; intros ->; lia|].
  destruct (mul_spec q b (canonical_digits _ Hq) Hb) as (p & Ep & Hp & Hvp).
  destruct (add_canonical p r Hp Hr) as (s & Es & Hs & Hvs).
  exists p, s. split; [exact Ep|]. split; [exact Es|].
  assert (Hsa : value s = value a) by lia.
  split; [exact Hsa|].
  intros Hca. apply eqb_eq, canonical_unique; assumption.
Qed.

(** C1 at 1234 divided by 25. *)
Lemma C1_div_mod_euclid_witness :
  exists q r,
    BigInt.div [4; 3; 2; 1] [5; 2] = Ret q /\
    BigInt.modulo [4; 3; 2; 1] [5; 2] = Ret r /\
    value [4; 3; 2; 1] = value [5; 2] * value q + value r /\
    0 <= value r < value [5; 2] /\
    BigInt.leb r [5; 2] = true /\ BigInt.eqb r [5; 2] = false /\
    exists p s, BigInt.mul q [5; 2] = Ret p /\ BigInt.add p r = Ret s /\
                value s = value [4; 3; 2; 1] /\
                (canonical [4; 3; 2; 1] -> BigInt.eqb s [4; 3; 2; 1] = true).
Proof.
  apply (C1_div_mod_euclid [4; 3; 2; 1] [5; 2]).
  - apply digits_of_list. reflexivity.
  - apply digits_of_list. reflexivity.
  - vm_compute. discriminate.
Defined.

(** C2 (division by zero).  For every [a], [a / z] and [a % z], with [z]
    the canonical zero [BigInt(0)], throw and return no value; for every
    divisor of non-zero value both return a value. *)
Theorem C2_division_by_zero (a b : BigInt.t) :
  (BigInt.div a (BigInt.of_int 0) = Throw "Division by zero" /\
   BigInt.modulo a (BigInt.of_int 0) = Throw "Modulo by zero") /\
  (digits a -> digits b -> value b <> 0 ->
   exists q r, BigInt.div a b = Ret q /\ BigInt.modulo a b = Ret r).
Proof.
  split; [split; reflexivity|].
  intros Ha Hb Hnz.
  assert (Hpos : 0 < value b) by (pose proof (value_nonneg b Hb); lia).
  destruct (div_mod_spec b Hb Hpos a Ha) as (q & r & Eq & Er & _).
  exists q, r. auto.
Qed.

(** C2 at the dividend 17 and the divisor 3. *)
Lemma C2_division_by_zero_witness :
  (BigInt.div [7; 1] (BigInt.of_int 0) = Throw "Division by zero" /\
   BigInt.modulo [7; 1] (BigInt.of_int 0) = Throw "Modulo by zero") /\
  exists q r, BigInt.div [7; 1] [3] = Ret q /\ BigInt.modulo [7; 1] [3] = Ret r.
Proof.
  split.
  - apply (C2_division_by_zero [7; 1] [3]).
  - apply (C2_division_by_zero [7; 1] [3]).
    + apply digits_of_list. reflexivity.
    + apply digits_of_list. reflexivity.
    + vm_compute. discriminate.
Defined.

(** C3 (agreement with machine arithmetic).  For non-negative [int]s [a]
    and [b] whose sum and product fit an [int],
    [BigInt(a) + BigInt(b) == BigInt(a + b)] and
    [BigInt(a) * BigInt(b) == BigInt(a * b)]. *)
Theorem C3_add_mul_machine (a b : Z) :
  0 <= a <= INT_MAX -> 0 <= b <= INT_MAX ->
  a + b <= INT_MAX -> a * b <= INT_MAX ->
  exists s p,
    BigInt.add (BigInt.of_int a) (BigInt.of_int b) = Ret s /\
    BigInt.eqb s (BigInt.of_int (a + b)) = true /\
    BigInt.mul (BigInt.of_int a) (BigInt.of_int b) = Ret p /\
    BigInt.eqb p (BigInt.of_int (a * b)) = true.
Proof.
  intros Ha Hb Hsum Hprod.
  pose proof (of_int_canonical a ltac:(lia)) as Hca.
  pose proof (of_int_canonical b ltac:(lia)) as Hcb.
  destruct (add_canonical _ _ Hca Hcb) as (s & Es & Hs & Hvs).
  destruct (mul_spec _ _ (canonical_digits _ Hca) (canonical_digits _ Hcb))
    as (p & Ep & Hp & Hvp).
  rewrite !of_int_value in Hvs, Hvp by lia.
  exists s, p. split; [exact Es|]. split.
  - apply eqb_eq, canonical_unique; [exact Hs|apply of_int_canonical; lia|].
    rewrite of_int_value by lia. exact Hvs.
  - split; [exact Ep|].
    apply eqb_eq, canonical_unique; [exact Hp|apply of_int_canonical; lia|].
    rewrite of_int_value by nia. exact Hvp.
Qed.

(** C3 at 999 and 25. *)
Lemma C3_add_mul_machine_witness :
  exists s p,
    BigInt.add (BigInt.of_int 999) (BigInt.of_int 25) = Ret s /\
    BigInt.eqb s (BigInt.of_int (999 + 25)) = true /\
    BigInt.mul (BigInt.of_int 999) (BigInt.of_int 25) = Ret p /\
    BigInt.eqb p (BigInt.of_int (999 * 25)) = true.
Proof.
  apply (C3_add_mul_machine 999 25); unfold INT_MAX; lia.
Defined.

(** C4 (canonical results).  Every value an arithmetic operation produces
    from canonical operands is canonical, and is the empty sequence when
    its value is zero; the operations do produce a value ([/] and [%] for
    a divisor other than zero). *)
Theorem C4_results_canonical (a b : BigInt.t) :
  canonical a -> canonical b ->
  (forall r, produced a b r -> canonical r /\ (value r = 0 -> r = [])) /\
  (exists r, BigInt.add a b = Ret r) /\
  (exists r, BigInt.mul a b = Ret r) /\
  (exists r, BigInt.post_increment a = Ret (a, r)) /\
  (exists r, BigInt.pre_increment a = Ret (r, r)) /\
  (b <> [] -> exists q r, BigInt.div a b = Ret q /\ BigInt.modulo a b = Ret r).
Proof.
  intros Ha Hb.
  pose proof (canonical_digits a Ha) as Hda.
  pose proof (canonical_digits b Hb) as Hdb.
  pose proof (of_int_canonical 1 ltac:(unfold INT_MAX; lia)) as H1.
  destruct (add_canonical a b Ha Hb) as (s & Es & Hs & _).
  destruct (mul_spec a b Hda Hdb) as (p & Ep & Hp & _).
  destruct (add_canonical a (BigInt.of_int 1) Ha H1) as (n & En & Hn & _).
  assert (Hdiv : b <> [] ->
            exists q r, BigInt.div a b = Ret q /\ BigInt.modulo a b = Ret r /\
                        canonical q /\ canonical r).
  { intros Hne. pose proof (canonical_value_pos b Hb Hne) as Hpos.
    destruct (div_mod_spec b Hdb Hpos a Hda) as (q & r & Eq & Er & Hq & Hr & _).
    exists q, r. auto. }
  split.
  { assert (Hcan : forall r, produced a b r -> canonical r).
    { intros r Hprod. destruct Hprod as [r E| |r E|r E|r E|x r E|r x E].
      - congruence.
      - apply sub_canonical; assumption.
      - congruence.
      - destruct (list_eq_dec Z.eq_dec b []) as [->|Hne]; [discriminate E|].
        destruct (Hdiv Hne) as (q & r' & Eq & _ & Hq & _). congruence.
      - destruct (list_eq_dec Z.eq_dec b []) as [->|Hne]; [discriminate E|].
        destruct (Hdiv Hne) as (q & r' & _ & Er & _ & Hr). congruence.
      - unfold BigInt.post_increment in E. rewrite En in E. cbn [bind] in E.
        congruence.
      - unfold BigInt.pre_increment in E. rewrite En in E. cbn [bind] in E.
        congruence. }
    intros r Hprod. split; [apply Hcan, Hprod|].
    apply canonical_value_zero, Hcan, Hprod. }
  split; [exists s; exact Es|]. split; [exists p; exact Ep|].
  split; [exists n; unfold BigInt.post_increment; rewrite En; reflexivity|].
  split; [exists n; unfold BigInt.pre_increment; rewrite En; reflexivity|].
  intros Hne. destruct (Hdiv Hne) as (q & r & Eq & Er & _). exists q, r. auto.
Qed.

(** C4 at the operands 100 and 100, whose difference and remainder are
    zero. *)
Lemma C4_results_canonical_witness :
  (forall r, produced [0; 0; 1] [0; 0; 1] r ->
             canonical r /\ (value r = 0 -> r = [])) /\
  (exists r, BigInt.add [0; 0; 1] [0; 0; 1] = Ret r) /\
  (exists r, BigInt.mul [0; 0; 1] [0; 0; 1] = Ret r) /\
  (exists r, BigInt.post_increment [0; 0; 1] = Ret ([0; 0; 1], r)) /\
  (exists r, BigInt.pre_increment [0; 0; 1] = Ret (r, r)) /\
  ([0; 0; 1] <> [] ->
   exists q r, BigInt.div [0; 0; 1] [0; 0; 1] = Ret q /\
               BigInt.modulo [0; 0; 1] [0; 0; 1] = Ret r).
Proof.
  apply (C4_results_canonical [0; 0; 1] [0; 0; 1]);
    apply canonical_of_list; reflexivity.
Defined.

(** C5 (subtraction).  For canonical [a] and [b] with
    [value b <= value a], [a - b] is the strip of the digit-wise
    difference with borrow taken over all the digits of [a]; it is
    canonical and its value is [value a - value b]. *)
Theorem C5_sub_exact (a b : BigInt.t) :
  canonical a -> canonical b -> value b <= value a ->
  let raw := BigInt.sub_loop (length a) a b [] 0 0%nat in
  length raw = length a /\ digits raw /\
  BigInt.sub a b = BigInt.strip raw /\
  canonical (BigInt.sub a b) /\
  value (BigInt.sub a b) = value a - value b.
Proof.
  intros Ha Hb Hle raw.
  pose proof (canonical_digits a Ha) as Hda.
  pose proof (canonical_digits b Hb) as Hdb.
  destruct (sub_loop_spec a b Hda Hdb (length a) [] 0 0%nat)
    as (borrow & Hd & Hlen & _).
  { split; [apply digits_nil|]. split; [reflexivity|]. split; [lia|].
    cbn [firstn value]. lia. }
  split; [exact Hlen|]. split; [exact Hd|]. split; [reflexivity|].
  split; [apply sub_canonical; assumption|].
  apply sub_value; assumption.
Qed.

(** C5 at 1000 - 999, where the borrow runs through every digit. *)
Lemma C5_sub_exact_witness :
  let raw := BigInt.sub_loop (length [0; 0; 0; 1]) [0; 0; 0; 1] [9; 9; 9] [] 0 0%nat in
  length raw = length [0; 0; 0; 1] /\ digits raw /\
  BigInt.sub [0; 0; 0; 1] [9; 9; 9] = BigInt.strip raw /\
  canonical (BigInt.sub [0; 0; 0; 1] [9; 9; 9]) /\
  value (BigInt.sub [0; 0; 0; 1] [9; 9; 9]) = value [0; 0; 0; 1] - value [9; 9; 9].
Proof.
  apply (C5_sub_exact [0; 0; 0; 1] [9; 9; 9]).
  - apply canonical_of_list. reflexivity.
  - apply canonical_of_list. reflexivity.
  - vm_compute. discriminate.
Defined.

(** C6 (less-or-equal).  For canonical [a] and [b], [a <= b] is true
    exactly when [value a <= value b]: a shorter sequence is the smaller
    value, sequences of one length are ordered by the first digit, from
    the most significant one, in which they differ, and a sequence is [<=]
    itself. *)
Theorem C6_leb_value (a b : BigInt.t) :
  canonical a -> canonical b ->
  (BigInt.leb a b = true <-> value a <= value b) /\
  ((length a < length b)%nat -> BigInt.leb a b = true /\ value a < value b) /\
  (length a = length b ->
   forall k, (k < length a)%nat -> nth k a 0 <> nth k b 0 ->
   (forall j, (k < j < length a)%nat -> nth j a 0 = nth j b 0) ->
   BigInt.leb a b = (nth k a 0 <? nth k b 0)) /\
  BigInt.leb a a = true.
Proof.
  intros Ha Hb.
  assert (Hspec : forall x y, canonical x -> canonical y ->
            (BigInt.leb x y = true <-> value x <= value y)).
  { intros x y Hx Hy. apply leb_spec; auto. }
  split; [apply Hspec; assumption|].
  split.
  - intros Hlt.
    assert (Hv : value a < value b).
    { assert (b <> []) by (intros ->; cbn [length] in Hlt; lia).
      pose proof (canonical_lower' b Hb ltac:(assumption)).
      pose proof (value_bound a (canonical_digits a Ha)).
      assert (pow10 (length a) <= pow10 (length b - 1)) by (apply pow10_le; lia).
      lia. }
    split; [apply Hspec; (assumption || lia)|exact Hv].
  - split.
    + intros E k Hk Hdiff Hsame. unfold BigInt.leb.
      rewrite <- E, Nat.eqb_refl. cbn [negb].
      apply leb_loop_first_mismatch; assumption.
    + apply Hspec; (assumption || lia).
Qed.

(** C6 at 99 and 100. *)
Lemma C6_leb_value_witness :
  (BigInt.leb [9; 9] [0; 0; 1] = true <-> value [9; 9] <= value [0; 0; 1]) /\
  ((length [9; 9] < length [0; 0; 1])%nat ->
   BigInt.leb [9; 9] [0; 0; 1] = true /\ value [9; 9] < value [0; 0; 1]) /\
  (length [9; 9] = length [0; 0; 1] ->
   forall k, (k < length [9; 9])%nat -> nth k [9; 9] 0 <> nth k [0; 0; 1] 0 ->
   (forall j, (k < j < length [9; 9])%nat -> nth j [9; 9] 0 = nth j [0; 0; 1] 0) ->
   BigInt.leb [9; 9] [0; 0; 1] = (nth k [9; 9] 0 <? nth k [0; 0; 1] 0)) /\
  BigInt.leb [9; 9] [9; 9] = true.
Proof.
  apply (C6_leb_value [9; 9] [0; 0; 1]); apply canonical_of_list; reflexivity.
Defined.

(** C7 (increments).  For every receiver [x], post-increment returns the
    old [x] and pre-increment the new receiver; both leave a receiver of
    value [value x + 1], canonical when [x] is.  From 9 both leave
    [BigInt(10)]. *)
Theorem C7_increment (x : BigInt.t) :
  digits x ->
  (exists receiver,
     BigInt.post_increment x = Ret (x, receiver) /\
     BigInt.pre_increment x = Ret (receiver, receiver) /\
     digits receiver /\ value receiver = value x + 1 /\
     (canonical x -> canonical receiver)) /\
  BigInt.post_increment (BigInt.of_int 9) = Ret (BigInt.of_int 9, BigInt.of_int 10) /\
  BigInt.pre_increment (BigInt.of_int 9) = Ret (BigInt.of_int 10, BigInt.of_int 10).
Proof.
  intros Hx. split; [|split; reflexivity].
  pose proof (of_int_canonical 1 ltac:(unfold INT_MAX; lia)) as H1.
  destruct (add_value x (BigInt.of_int 1) Hx (canonical_digits _ H1))
    as (n & En & Hn & Hv).
  rewrite of_int_value in Hv by (unfold INT_MAX; lia).
  exists n. unfold BigInt.post_increment, BigInt.pre_increment. rewrite En.
  split; [reflexivity|]. split; [reflexivity|]. split; [exact Hn|].
  split; [exact Hv|].
  intros Hc. destruct (add_canonical x (BigInt.of_int 1) Hc H1) as (n' & En' & Hn' & _).
  congruence.
Qed.

(** C7 at the receiver 99. *)
Lemma C7_increment_witness :
  (exists receiver,
     BigInt.post_increment [9; 9] = Ret ([9; 9], receiver) /\
     BigInt.pre_increment [9; 9] = Ret (receiver, receiver) /\
     digits receiver /\ value receiver = value [9; 9] + 1 /\
     (canonical [9; 9] -> canonical receiver)) /\
  BigInt.post_increment (BigInt.of_int 9) = Ret (BigInt.of_int 9, BigInt.of_int 10) /\
  BigInt.pre_increment (BigInt.of_int 9) = Ret (BigInt.of_int 10, BigInt.of_int 10).
Proof.
  apply (C7_increment [9; 9]). apply digits_of_list. reflexivity.
Defined.

(** C8 (round trip through the decimal rendering).  For every value [v],
    the [BigInt] constructed from the text that [print] writes for [v]
    compares equal to [v]. *)
Theorem C8_print_round_trip (v : BigInt.t) :
  digits v -> BigInt.eqb (BigInt.of_string (BigInt.print v)) v = true.
Proof.
  intros Hv. apply eqb_eq, of_string_print, Hv.
Qed.

(** C8 at the value 0807, written with a leading zero. *)
Lemma C8_print_round_trip_witness :
  BigInt.eqb (BigInt.of_string (BigInt.print [7; 0; 8; 0])) [7; 0; 8; 0] = true.
Proof.
  apply (C8_print_round_trip [7; 0; 8; 0]). apply digits_of_list. reflexivity.
Defined.

(** C9, as stated, fails: [fact] is not the factorial of the value for
    every receiver.  The receiver [BigInt("05")] has the value 5 and
    [fact] returns 362880, the factorial of 9: [i <= *this] compares the
    sizes first, and holds for every one-digit [i]. *)
Lemma C9_fact_counterexample :
  BigInt.of_string "05" = [5; 0] /\
  value (BigInt.of_string "05") = 5 /\
  factorial 5 = 120 /\
  BigInt.fact (BigInt.of_string "05") = Ret (BigInt.of_int 362880) /\
  value (BigInt.of_int 362880) = factorial 9 /\
  ~ (forall n : BigInt.t, digits n ->
       exists r, BigInt.fact n = Ret r /\ value r = factorial (value n)).
Proof.
  split; [reflexivity|]. split; [reflexivity|]. split; [reflexivity|].
  split; [vm_compute; reflexivity|]. split; [vm_compute; reflexivity|].
  intros H.
  destruct (H (BigInt.of_string "05")) as (r & E & Hv).
  - apply digits_of_list. reflexivity.
  - vm_compute in E. injection E as <-. vm_compute in Hv. discriminate Hv.
Qed.

(** C9, amended (factorial).  For every canonical receiver [n], [fact]
    returns the factorial of [value n], in canonical form; on 0 (built
    from the integer or from the string) and on 1 it returns 1, and on 10
    it returns 3628800. *)
Theorem C9_fact_canonical (n : BigInt.t) :
  canonical n ->
  (exists r, BigInt.fact n = Ret r /\ canonical r /\
             value r = factorial (value n)) /\
  BigInt.fact (BigInt.of_int 0) = Ret (BigInt.of_int 1) /\
  BigInt.fact (BigInt.of_string "0") = Ret (BigInt.of_int 1) /\
  BigInt.fact (BigInt.of_int 1) = Ret (BigInt.of_int 1) /\
  BigInt.fact (BigInt.of_int 10) = Ret (BigInt.of_int 3628800).
Proof.
  intros Hn. split; [apply fact_spec, Hn|].
  split; [reflexivity|]. split; [reflexivity|]. split; [reflexivity|].
  vm_compute. reflexivity.
Qed.

(** C9 at the receiver 12. *)
Lemma C9_fact_canonical_witness :
  (exists r, BigInt.fact [2; 1] = Ret r /\ canonical r /\
             value r = factorial (value [2; 1])) /\
  BigInt.fact (BigInt.of_int 0) = Ret (BigInt.of_int 1) /\
  BigInt.fact (BigInt.of_string "0") = Ret (BigInt.of_int 1) /\
  BigInt.fact (BigInt.of_int 1) = Ret (BigInt.of_int 1) /\
  BigInt.fact (BigInt.of_int 10) = Ret (BigInt.of_int 3628800).
Proof.
  apply (C9_fact_canonical [2; 1]). apply canonical_of_list. reflexivity.
Defined.

(** C10 (the two zeros).  [BigInt(0)] is the empty sequence, [BigInt("0")]
    is the single digit zero, and [BigInt(0) == BigInt("0")] is false; the
    two are not interchangeable: dividing by the first throws, dividing by
    the second returns. *)
Theorem C10_two_zeros :
  BigInt.of_int 0 = [] /\
  BigInt.of_string "0" = [0] /\
  BigInt.eqb (BigInt.of_int 0) (BigInt.of_string "0") = false /\
  value (BigInt.of_int 0) = value (BigInt.of_string "0") /\
  BigInt.div (BigInt.of_int 5) (BigInt.of_int 0) = Throw "Division by zero" /\
  BigInt.div (BigInt.of_int 5) (BigInt.of_string "0") = Ret [10].
Proof.
  repeat split; vm_compute; reflexivity.
Qed.

(** * Further properties of [BigInt] *)

(** ** Addition is symmetric *)

Lemma add_loop_comm fuel : forall vi other maxSize result carry i,
  BigInt.add_loop fuel vi other maxSize result carry i =
  BigInt.add_loop fuel other vi maxSize result carry i.
Proof.
  induction fuel as [|fuel IH]; intros vi other maxSize result carry i;
    cbn [BigInt.add_loop]; [reflexivity|].
  destruct ((i <? maxSize)%nat || negb (carry =? 0)); [|reflexivity].
  rewrite !nth_guard.
  replace (carry + nth i other 0 + nth i vi 0)
    with (carry + nth i vi 0 + nth i other 0) by ring.
  destruct (store _ i _) as [r| | |]; cbn [bind]; try reflexivity.
  apply IH.
Qed.

Lemma add_comm a b : BigInt.add a b = BigInt.add b a.
Proof.
  unfold BigInt.add. rewrite (Nat.max_comm (length b) (length a)).
  apply add_loop_comm.
Qed.

(** ** Digit sequences of one length *)

Lemma digits_value_inj a : forall b,
  digits a -> digits b -> length a = length b -> value a = value b -> a = b.
Proof.
  induction a as [|d a IH]; intros [|e b] Ha Hb Hlen Hv;
    cbn [length] in Hlen; try lia; [reflexivity|].
  apply digits_cons in Ha. destruct Ha as [Hd Ha].
  apply digits_cons in Hb. destruct Hb as [He Hb].
  cbn [value] in Hv. unfold digit in Hd, He.
  assert (d = e) by lia. subst e. f_equal. apply IH; (assumption || lia).
Qed.

(** ** Subtraction below zero *)

Lemma value_firstn_mod vi n :
  digits vi -> value (firstn n vi) mod pow10 n = value vi mod pow10 n.
Proof.
  intros Hd. rewrite <- (firstn_skipn n vi) at 2. rewrite value_app.
  destruct (Nat.le_gt_cases n (length vi)) as [Hn|Hn].
  - rewrite length_firstn, Nat.min_l by lia.
    rewrite Z.mul_comm, Z_mod_plus_full. reflexivity.
  - rewrite skipn_all2 by lia. cbn [value]. f_equal. lia.
Qed.

(** The difference is the difference of the values modulo [10 ^ size()],
    in canonical form: a left operand smaller than the right one wraps. *)
Lemma sub_wrap a b :
  digits a -> digits b ->
  value (BigInt.sub a b) = (value a - value b) mod pow10 (length a).
Proof.
  intros Ha Hb. unfold BigInt.sub. rewrite value_strip.
  destruct (sub_loop_spec a b Ha Hb (length a) [] 0 0%nat)
    as (borrow & Hd & Hlen & Hbr & Hval).
  { split; [apply digits_nil|]. split; [reflexivity|]. split; [lia|].
    cbn [firstn value]. lia. }
  cbn [Nat.add] in *. rewrite value_firstn_all in Hval by lia.
  pose proof (value_bound _ Hd) as Hbound. rewrite Hlen in Hbound.
  pose proof (pow10_pos (length a)) as Hpos.
  rewrite Zminus_mod, <- (value_firstn_mod b (length a) Hb), <- Zminus_mod.
  replace (value a - value (firstn (length a) b))
    with (value (BigInt.sub_loop (length a) a b [] 0 0%nat)
          + (- borrow) * pow10 (length a)) by lia.
  rewrite Z_mod_plus_full, Z.mod_small by lia. reflexivity.
Qed.

Lemma sub_nil a : digits a -> BigInt.sub a [] = BigInt.strip a.
Proof.
  intros Ha. apply canonical_unique.
  - apply sub_canonical; [assumption|apply digits_nil].
  - apply canonical_strip, Ha.
  - rewrite sub_wrap, value_strip by (assumption || apply digits_nil).
    cbn [value]. rewrite Z.sub_0_r. apply Z.mod_small, value_bound, Ha.
Qed.

(** ** More on normalisation *)

Lemma strip_fixed vi : last vi 1 <> 0 -> BigInt.strip vi = vi.
Proof.
  intros Hl. destruct (list_eq_dec Z.eq_dec vi []) as [->|Hne]; [reflexivity|].
  destruct (exists_last Hne) as (l & d & ->).
  rewrite last_last in Hl. unfold BigInt.strip.
  rewrite length_app. cbn [length]. rewrite Nat.add_1_r, strip_loop_snoc.
  destruct (Z.eqb_spec d 0); [contradiction|reflexivity].
Qed.

Lemma strip_cons_strip d vi :
  digit d -> digits vi ->
  BigInt.strip (d :: BigInt.strip vi) = BigInt.strip (d :: vi).
Proof.
  intros Hd Hv. apply canonical_unique.
  - apply canonical_strip, digits_cons. split; [assumption|apply digits_strip, Hv].
  - apply canonical_strip, digits_cons. auto.
  - rewrite !value_strip. cbn [value]. rewrite value_strip. reflexivity.
Qed.

Lemma last_repeat (x d : Z) k : last (repeat x (S k)) d = x.
Proof.
  induction k as [|k IH]; [reflexivity|].
  change (repeat x (S (S k))) with (x :: repeat x (S k)).
  change (repeat x (S k)) with (x :: repeat x k) at 1.
  rewrite last_cons_cons. apply IH.
Qed.

(** ** Fibonacci *)

Lemma fib_SS j : fib (S (S j)) = fib j + fib (S j).
Proof. reflexivity. Qed.

(** [fiboHelper] on a canonical counter [n] moves the pair of consecutive
    Fibonacci numbers [(a, b)] forward [value n] times. *)
Lemma fiboHelper_spec fuel : forall n a b j,
  canonical n -> canonical a -> canonical b ->
  value a = fib j -> value b = fib (S j) ->
  value n <= Z.of_nat fuel ->
  exists r, BigInt.fiboHelper fuel n a b = Ret r /\ canonical r /\
            value r = fib (j + Z.to_nat (value n)).
Proof.
  assert (H1 : canonical [1]) by (apply canonical_of_list; reflexivity).
  induction fuel as [|fuel IH]; intros n a b j Hn Ha Hb Hva Hvb Hf;
    cbn [BigInt.fiboHelper];
    change (BigInt.of_int 0) with (@nil Z); change (BigInt.of_int 1) with [1];
    destruct (BigInt.eqb n []) eqn:E0.
  1,3: (apply eqb_eq in E0; subst n; exists a; split; [reflexivity|];
        split; [exact Ha|]; cbn [value]; rewrite Hva; f_equal; lia).
  all: destruct (BigInt.eqb n [1]) eqn:E1.
  1,3: (apply eqb_eq in E1; subst n; exists b; split; [reflexivity|];
        split; [exact Hb|]; rewrite Hvb; f_equal; cbn; lia).
  all: apply eqb_neq in E0; apply eqb_neq in E1;
       pose proof (canonical_value_pos n Hn E0) as Hpos;
       assert (Hne1 : value n <> 1)
         by (intros Hv; apply E1, canonical_unique; auto).
  - lia.
  - destruct (add_canonical a b Ha Hb) as (s & Es & Hs & Hvs).
    rewrite Es, bind_Ret.
    pose proof (canonical_digits n Hn) as Hdn.
    pose proof (canonical_digits _ H1) as Hd1.
    destruct (IH (BigInt.sub n [1]) b s (S j)) as (r & Er & Hr & Hvr).
    + apply sub_canonical; assumption.
    + exact Hb.
    + exact Hs.
    + exact Hvb.
    + rewrite Hvs, Hva, Hvb. symmetry. apply fib_SS.
    + rewrite sub_value by (try assumption; cbn; lia). cbn [value]. lia.
    + exists r. split; [exact Er|]. split; [exact Hr|].
      rewrite Hvr, sub_value by (try assumption; cbn; lia).
      f_equal. cbn [value]. lia.
Qed.

Lemma pow10_nat n : Z.of_nat (10 ^ n) = pow10 n.
Proof. unfold pow10. rewrite Nat2Z.inj_pow. reflexivity. Qed.

(** X1 ([fibo] is the Fibonacci number of the value).  For every receiver
    made of decimal digits that is the empty sequence or has a non-zero
    value, leading zeros allowed, [fibo] returns, in canonical form, the
    Fibonacci number of the value of the receiver. *)
Theorem X1_fibo_value (n : BigInt.t) :
  digits n -> n = [] \/ value n <> 0 ->
  exists r, BigInt.fibo n = Ret r /\ canonical r /\
            value r = fib (Z.to_nat (value n)).
Proof.
  intros Hd Hcase.
  destruct (list_eq_dec Z.eq_dec n []) as [->|Hne].
  { exists []. split; [reflexivity|]. split; [apply canonical_nil|reflexivity]. }
  assert (Hnz : value n <> 0) by (destruct Hcase; [contradiction|assumption]).
  pose proof (value_bound n Hd) as Hb.
  assert (H1 : canonical [1]) by (apply canonical_of_list; reflexivity).
  unfold BigInt.fibo. pose proof (pow10_nat (length n)) as Hp.
  destruct (10 ^ length n)%nat as [|fuel]; [lia|].
  cbn [BigInt.fiboHelper].
  change (BigInt.of_int 0) with (@nil Z). change (BigInt.of_int 1) with [1].
  destruct (BigInt.eqb n []) eqn:E0; [apply eqb_eq in E0; contradiction|].
  destruct (BigInt.eqb n [1]) eqn:E1.
  { apply eqb_eq in E1. subst n. exists [1].
    split; [reflexivity|]. split; [exact H1|reflexivity]. }
  change (BigInt.add [] [1]) with (@Ret BigInt.t [1]). rewrite bind_Ret.
  pose proof (canonical_digits _ H1) as Hd1.
  destruct (fiboHelper_spec fuel (BigInt.sub n [1]) [1] [1] 1%nat)
    as (r & Er & Hr & Hv); try assumption; try reflexivity.
  - apply sub_canonical; assumption.
  - rewrite sub_value by (try assumption; cbn [value]; lia). cbn [value]. lia.
  - exists r. split; [exact Er|]. split; [exact Hr|].
    rewrite Hv, sub_value by (try assumption; cbn [value]; lia).
    f_equal. cbn [value]. lia.
Qed.

(** X1 at the receiver built from the string "010". *)
Lemma X1_fibo_value_witness :
  exists r, BigInt.fibo [0; 1; 0] = Ret r /\ canonical r /\
            value r = fib (Z.to_nat (value [0; 1; 0])).
Proof.
  apply (X1_fibo_value [0; 1; 0]).
  - apply digits_of_list. reflexivity.
  - right. vm_compute. discriminate.
Defined.

(** X2 ([fibo] of a zero that is not the empty sequence).  A receiver of
    [k >= 1] digits, all zero, such as [BigInt("0")], misses both base
    cases of [fiboHelper]; [n - 1] wraps to [10 ^ k - 1] and [fibo]
    returns the Fibonacci number of [10 ^ k], not of zero. *)
Theorem X2_fibo_zero_digits (n : BigInt.t) :
  digits n -> n <> [] -> value n = 0 ->
  exists r, BigInt.fibo n = Ret r /\ canonical r /\
            value r = fib (Z.to_nat (pow10 (length n))).
Proof.
  intros Hd Hne Hz.
  assert (H1 : canonical [1]) by (apply canonical_of_list; reflexivity).
  pose proof (canonical_digits _ H1) as Hd1.
  assert (Hlen : (1 <= length n)%nat)
    by (destruct n; [congruence|cbn [length]; lia]).
  pose proof (pow10_le 1 (length n) Hlen) as Hp10.
  change (pow10 1) with 10 in Hp10.
  assert (Hsub : value (BigInt.sub n [1]) = pow10 (length n) - 1).
  { rewrite sub_wrap, Hz by assumption. cbn [value].
    replace (0 - (1 + 10 * 0)) with (pow10 (length n) - 1 + (-1) * pow10 (length n))
      by ring.
    rewrite Z_mod_plus_full. apply Z.mod_small. lia. }
  unfold BigInt.fibo. pose proof (pow10_nat (length n)) as Hp.
  destruct (10 ^ length n)%nat as [|fuel]; [lia|].
  cbn [BigInt.fiboHelper].
  change (BigInt.of_int 0) with (@nil Z). change (BigInt.of_int 1) with [1].
  destruct (BigInt.eqb n []) eqn:E0; [apply eqb_eq in E0; contradiction|].
  destruct (BigInt.eqb n [1]) eqn:E1.
  { apply eqb_eq in E1. subst n. discriminate Hz. }
  change (BigInt.add [] [1]) with (@Ret BigInt.t [1]). rewrite bind_Ret.
  destruct (fiboHelper_spec fuel (BigInt.sub n [1]) [1] [1] 1%nat)
    as (r & Er & Hr & Hv); try assumption; try reflexivity.
  - apply sub_canonical; assumption.
  - lia.
  - exists r. split; [exact Er|]. split; [exact Hr|].
    rewrite Hv, Hsub. f_equal. lia.
Qed.

(** X2 at [BigInt("0")]: [fibo] returns 55, the tenth Fibonacci number. *)
Lemma X2_fibo_zero_digits_witness :
  exists r, BigInt.fibo [0] = Ret r /\ canonical r /\
            value r = fib (Z.to_nat (pow10 (length [0]%Z))).
Proof.
  apply (X2_fibo_zero_digits [0]).
  - apply digits_of_list. reflexivity.
  - discriminate.
  - reflexivity.
Defined.

(** X3 (subtraction wraps).  For all operands made of decimal digits the
    difference is canonical and its value is the difference of the values
    modulo [10 ^ size()] of the left operand: a left operand smaller than
    a right operand with no more digits gives [value a - value b +
    10 ^ size()], with no error. *)
Theorem X3_sub_wraps (a b : BigInt.t) :
  digits a -> digits b ->
  canonical (BigInt.sub a b) /\
  value (BigInt.sub a b) = (value a - value b) mod pow10 (length a) /\
  (value a < value b -> (length b <= length a)%nat ->
   value (BigInt.sub a b) = value a - value b + pow10 (length a)).
Proof.
  intros Ha Hb. split; [apply sub_canonical; assumption|].
  split; [apply sub_wrap; assumption|].
  intros Hlt Hlen. rewrite sub_wrap by assumption.
  pose proof (value_bound a Ha). pose proof (value_bound b Hb).
  pose proof (pow10_le _ _ Hlen).
  rewrite <- (Z_mod_plus_full (value a - value b) 1 (pow10 (length a))).
  rewrite Z.mod_small by lia. ring.
Qed.

(** X3 at 25 - 30. *)
Lemma X3_sub_wraps_witness :
  canonical (BigInt.sub [5; 2] [0; 3]) /\
  value (BigInt.sub [5; 2] [0; 3]) =
    (value [5; 2] - value [0; 3]) mod pow10 (length [5; 2]%Z) /\
  (value [5; 2] < value [0; 3] -> (length [0; 3]%Z <= length [5; 2]%Z)%nat ->
   value (BigInt.sub [5; 2] [0; 3]) =
     value [5; 2] - value [0; 3] + pow10 (length [5; 2]%Z)).
Proof.
  apply (X3_sub_wraps [5; 2] [0; 3]); apply digits_of_list; reflexivity.
Defined.

(** ** Division by a zero that is not the empty sequence *)

Lemma leb_nil_left c : BigInt.leb [] c = true.
Proof. destruct c; reflexivity. Qed.

Lemma skipn_nth_cons (l : list Z) : forall i,
  (i < length l)%nat -> skipn i l = nth i l 0 :: skipn (S i) l.
Proof.
  induction l as [|e l IH]; intros i Hi; cbn [length] in Hi; [lia|].
  destruct i as [|i]; [reflexivity|].
  cbn [skipn nth]. apply IH. lia.
Qed.

Section ZeroDivisor.

Variable other : BigInt.t.
Hypothesis Hother : digits other.
Hypothesis Hzero : value other = 0.

Lemma mul_zero_divisor m :
  0 <= m <= INT_MAX -> BigInt.mul other (BigInt.of_int m) = Ret [].
Proof.
  intros Hm.
  destruct (mul_spec other (BigInt.of_int m) Hother
              (canonical_digits _ (of_int_canonical m ltac:(lia))))
    as (p & E & Hc & Hv).
  rewrite E. f_equal. apply canonical_value_zero; [exact Hc|].
  rewrite Hv, Hzero. ring.
Qed.

(** Every test of the binary search succeeds, and it ends on [r]. *)
Lemma search_loop_zero_divisor current fuel : forall x l r,
  0 <= l -> r <= 10 -> r - l + 1 <= Z.of_nat fuel ->
  BigInt.search_loop fuel other current x l r = Ret (if l <=? r then r else x).
Proof.
  induction fuel as [|fuel IH]; intros x l r Hl Hr Hf;
    cbn [BigInt.search_loop]; destruct (Z.leb_spec l r) as [Hlr|Hlr];
    try reflexivity; [lia|].
  rewrite Z.quot_div_nonneg by lia.
  assert (Hm : l <= (l + r) / 2 <= r).
  { split; [apply Z.div_le_lower_bound|apply Z.div_le_upper_bound]; lia. }
  rewrite mul_zero_divisor by (unfold INT_MAX; lia).
  rewrite bind_Ret, leb_nil_left, IH by lia.
  destruct (Z.leb_spec ((l + r) / 2 + 1) r); [reflexivity|f_equal; lia].
Qed.

Lemma search_zero_divisor current : BigInt.search other current = Ret 10.
Proof.
  unfold BigInt.search. rewrite search_loop_zero_divisor by lia. reflexivity.
Qed.

Variable vi : BigInt.t.
Hypothesis Hvi : digits vi.

Lemma div_loop_zero_divisor i : forall k,
  (i <= length vi)%nat ->
  BigInt.div_loop i vi other (repeat 10 k) (BigInt.strip (skipn i vi)) =
  Ret (repeat 10 (i + k), BigInt.strip vi).
Proof.
  induction i as [|i IH]; intros k Hi; cbn [BigInt.div_loop].
  - reflexivity.
  - rewrite search_zero_divisor, bind_Ret.
    rewrite mul_zero_divisor by (unfold INT_MAX; lia). rewrite bind_Ret.
    pose proof (digits_nth vi i Hvi) as Hd.
    pose proof (digits_skipn vi (S i) Hvi) as Hs.
    rewrite sub_nil
      by (apply digits_cons; split; [assumption|apply digits_strip, Hs]).
    rewrite strip_cons_strip by assumption.
    rewrite <- (skipn_nth_cons vi i) by lia.
    change (10 :: repeat 10 k) with (repeat 10 (S k)).
    rewrite IH by lia.
    replace (i + S k)%nat with (S i + k)%nat by lia. reflexivity.
Qed.

End ZeroDivisor.

(** X4 (a divisor of zero value that is not the empty sequence).  The
    guard of [operator/] and [operator%] compares the divisor with the
    empty sequence only.  For a non-empty divisor of value zero, such as
    [BigInt("0")], neither throws: the quotient returned has one element
    for every digit of the dividend, each the number ten, and the
    remainder returned is the dividend without its leading zeros. *)
Theorem X4_zero_divisor_not_detected (a b : BigInt.t) :
  digits a -> digits b -> b <> [] -> value b = 0 ->
  BigInt.div a b = Ret (repeat 10 (length a)) /\
  BigInt.modulo a b = Ret (BigInt.strip a).
Proof.
  intros Ha Hb Hne Hz.
  assert (E : BigInt.eqb b (BigInt.of_int 0) = false)
    by (apply eqb_neq; rewrite of_int_0; exact Hne).
  pose proof (div_loop_zero_divisor b Hb Hz a Ha (length a) 0%nat (Nat.le_refl _))
    as Hloop.
  rewrite skipn_all, Nat.add_0_r in Hloop.
  change (BigInt.strip []) with (@nil Z) in Hloop. cbn [repeat] in Hloop.
  unfold BigInt.div, BigInt.modulo. rewrite E.
  rewrite (mod_loop_div_loop b a (length a) [] []), Hloop, !bind_Ret.
  cbn [fst snd]. split; [|reflexivity].
  f_equal. apply strip_fixed.
  destruct (length a) as [|k]; [cbn; lia|].
  rewrite last_repeat. lia.
Qed.

(** X4 at 17 divided by [BigInt("00")]. *)
Lemma X4_zero_divisor_not_detected_witness :
  BigInt.div [7; 1] [0; 0] = Ret (repeat 10 (length [7; 1]%Z)) /\
  BigInt.modulo [7; 1] [0; 0] = Ret (BigInt.strip [7; 1]).
Proof.
  apply (X4_zero_divisor_not_detected [7; 1] [0; 0]).
  - apply digits_of_list. reflexivity.
  - apply digits_of_list. reflexivity.
  - discriminate.
  - reflexivity.
Defined.

(** ** Algebra of the operators *)

(** X5 (addition is symmetric).  [a + b] and [b + a] are the same outcome
    for all vectors, so [n + x], the addition of a [BigInt] to an [int],
    is [x + n]. *)
Theorem X5_add_symmetric (a b : BigInt.t) (n : Z) :
  BigInt.add a b = BigInt.add b a /\
  BigInt.int_add n b = BigInt.add b (BigInt.of_int n).
Proof.
  split; [apply add_comm|]. unfold BigInt.int_add. apply add_comm.
Qed.

(** X6 (multiplication is symmetric).  For operands made of decimal
    digits, [a * b] and [b * a] return the same sequence. *)
Theorem X6_mul_symmetric (a b : BigInt.t) :
  digits a -> digits b ->
  exists p, BigInt.mul a b = Ret p /\ BigInt.mul b a = Ret p.
Proof.
  intros Ha Hb.
  destruct (mul_spec a b Ha Hb) as (p & Ep & Hp & Hvp).
  destruct (mul_spec b a Hb Ha) as (q & Eq & Hq & Hvq).
  exists p. split; [exact Ep|]. rewrite Eq. f_equal.
  apply canonical_unique; try assumption. lia.
Qed.

(** X6 at 1234 and 9223372036854775807. *)
Lemma X6_mul_symmetric_witness :
  exists p,
    BigInt.mul [4; 3; 2; 1] [7; 0; 8; 5; 7; 7; 4; 5; 8; 6; 3; 0; 2; 7; 3; 3; 2; 2; 9] = Ret p /\
    BigInt.mul [7; 0; 8; 5; 7; 7; 4; 5; 8; 6; 3; 0; 2; 7; 3; 3; 2; 2; 9] [4; 3; 2; 1] = Ret p.
Proof.
  apply (X6_mul_symmetric [4; 3; 2; 1]
           [7; 0; 8; 5; 7; 7; 4; 5; 8; 6; 3; 0; 2; 7; 3; 3; 2; 2; 9]);
    apply digits_of_list; reflexivity.
Defined.

(** X7 (neutral and absorbing elements).  For every [a] made of decimal
    digits: adding the default-constructed [BigInt] on either side
    returns [a] itself; multiplying by [BigInt(1)] returns [a] without its
    leading zeros; multiplying by [BigInt(0)] returns the empty sequence;
    [a - a] is the empty sequence and [a - BigInt(0)] is [a] without its
    leading zeros. *)
Theorem X7_neutral_elements (a : BigInt.t) :
  digits a ->
  BigInt.add a BigInt.default = Ret a /\
  BigInt.add BigInt.default a = Ret a /\
  BigInt.mul a (BigInt.of_int 1) = Ret (BigInt.strip a) /\
  BigInt.mul (BigInt.of_int 1) a = Ret (BigInt.strip a) /\
  BigInt.mul a (BigInt.of_int 0) = Ret [] /\
  BigInt.mul (BigInt.of_int 0) a = Ret [] /\
  BigInt.sub a a = [] /\
  BigInt.sub a (BigInt.of_int 0) = BigInt.strip a.
Proof.
  intros Ha.
  assert (H1 : canonical (BigInt.of_int 1)) by (apply canonical_of_list; reflexivity).
  assert (H0 : canonical (BigInt.of_int 0)) by (apply canonical_of_list; reflexivity).
  pose proof (canonical_digits _ H1) as Hd1.
  pose proof (canonical_digits _ H0) as Hd0.
  assert (Hadd : BigInt.add a BigInt.default = Ret a).
  { destruct (add_spec a BigInt.default Ha digits_nil _ eq_refl)
      as (r & E & Hr & Hv & Hlen).
    rewrite E. f_equal. cbn [BigInt.default value length] in *.
    rewrite Nat.max_0_r in Hlen. pose proof (value_bound a Ha).
    apply digits_value_inj; try assumption; lia. }
  assert (Hmul : forall x y k, digits x -> digits y -> canonical k ->
            value x * value y = value k -> BigInt.mul x y = Ret k).
  { intros x y k Hx Hy Hk Hv.
    destruct (mul_spec x y Hx Hy) as (p & E & Hp & Hvp).
    rewrite E. f_equal. apply canonical_unique; try assumption. lia. }
  split; [exact Hadd|]. split; [rewrite add_comm; exact Hadd|].
  split; [apply Hmul; auto using canonical_strip;
          rewrite value_strip; change (value (BigInt.of_int 1)) with 1; ring|].
  split; [apply Hmul; auto using canonical_strip;
          rewrite value_strip; change (value (BigInt.of_int 1)) with 1; ring|].
  split; [apply Hmul; auto using canonical_nil;
          change (value (BigInt.of_int 0)) with 0; cbn [value]; ring|].
  split; [apply Hmul; auto using canonical_nil;
          change (value (BigInt.of_int 0)) with 0; cbn [value]; ring|].
  split.
  - apply canonical_value_zero; [apply sub_canonical; assumption|].
    rewrite sub_value by (assumption || lia). ring.
  - rewrite of_int_0. apply sub_nil, Ha.
Qed.

(** X7 at the operand built from "0120". *)
Lemma X7_neutral_elements_witness :
  BigInt.add [0; 2; 1; 0] BigInt.default = Ret [0; 2; 1; 0] /\
  BigInt.add BigInt.default [0; 2; 1; 0] = Ret [0; 2; 1; 0] /\
  BigInt.mul [0; 2; 1; 0] (BigInt.of_int 1) = Ret (BigInt.strip [0; 2; 1; 0]) /\
  BigInt.mul (BigInt.of_int 1) [0; 2; 1; 0] = Ret (BigInt.strip [0; 2; 1; 0]) /\
  BigInt.mul [0; 2; 1; 0] (BigInt.of_int 0) = Ret [] /\
  BigInt.mul (BigInt.of_int 0) [0; 2; 1; 0] = Ret [] /\
  BigInt.sub [0; 2; 1; 0] [0; 2; 1; 0] = [] /\
  BigInt.sub [0; 2; 1; 0] (BigInt.of_int 0) = BigInt.strip [0; 2; 1; 0].
Proof.
  apply (X7_neutral_elements [0; 2; 1; 0]). apply digits_of_list. reflexivity.
Defined.

(** X8 (operations undo one another).  For a canonical [a] and a [b] made
    of decimal digits, [(a + b) - b] is [a]; when the value of [b] is not
    zero, [(a * b) / b] is [a] and [(a * b) % b] is the empty sequence. *)
Theorem X8_inverse_operations (a b : BigInt.t) :
  canonical a -> digits b ->
  (exists s, BigInt.add a b = Ret s /\ BigInt.sub s b = a) /\
  (value b <> 0 ->
   exists p, BigInt.mul a b = Ret p /\ BigInt.div p b = Ret a /\
             BigInt.modulo p b = Ret []).
Proof.
  intros Ha Hb. pose proof (canonical_digits a Ha) as Hda.
  pose proof (value_nonneg a Hda) as Hpa. pose proof (value_nonneg b Hb) as Hpb.
  split.
  - destruct (add_value a b Hda Hb) as (s & Es & Hs & Hvs).
    exists s. split; [exact Es|].
    apply canonical_unique; [apply sub_canonical; assumption|exact Ha|].
    rewrite sub_value by (assumption || lia). lia.
  - intros Hnz. assert (Hpos : 0 < value b) by lia.
    destruct (mul_spec a b Hda Hb) as (p & Ep & Hp & Hvp).
    destruct (div_mod_spec b Hb Hpos p (canonical_digits _ Hp))
      as (q & r & Eq & Er & Hq & Hr & Hv & Hlt).
    assert (Hqa : value q = value a).
    { pose proof (value_nonneg q (canonical_digits _ Hq)). nia. }
    exists p. split; [exact Ep|]. split.
    + rewrite Eq. f_equal. apply canonical_unique; assumption.
    + rewrite Er. f_equal. apply canonical_value_zero; [exact Hr|]. nia.
Qed.

(** X8 at 1234 and 25. *)
Lemma X8_inverse_operations_witness :
  (exists s, BigInt.add [4; 3; 2; 1] [5; 2] = Ret s /\
             BigInt.sub s [5; 2] = [4; 3; 2; 1]) /\
  (value [5; 2] <> 0 ->
   exists p, BigInt.mul [4; 3; 2; 1] [5; 2] = Ret p /\
             BigInt.div p [5; 2] = Ret [4; 3; 2; 1] /\
             BigInt.modulo p [5; 2] = Ret []).
Proof.
  apply (X8_inverse_operations [4; 3; 2; 1] [5; 2]).
  - apply canonical_of_list. reflexivity.
  - apply digits_of_list. reflexivity.
Defined.

Lemma canonical_length_bound p k :
  canonical p -> value p < pow10 k -> (length p <= k)%nat.
Proof.
  intros Hp Hlt. destruct p as [|d p]; [cbn [length]; lia|].
  pose proof (canonical_lower d p Hp) as Hlow.
  assert (Hpk : pow10 (length p) < pow10 k) by lia.
  apply pow10_lt_inv in Hpk. cbn [length]. lia.
Qed.

(** X9 (the laws of arithmetic).  On canonical operands [+] and [*] are
    associative and [*] distributes over [+]: both sides return the same
    sequence. *)
Theorem X9_arithmetic_laws (a b c : BigInt.t) :
  canonical a -> canonical b -> canonical c ->
  (exists ab bc r, BigInt.add a b = Ret ab /\ BigInt.add b c = Ret bc /\
                   BigInt.add ab c = Ret r /\ BigInt.add a bc = Ret r) /\
  (exists ab bc r, BigInt.mul a b = Ret ab /\ BigInt.mul b c = Ret bc /\
                   BigInt.mul ab c = Ret r /\ BigInt.mul a bc = Ret r) /\
  (exists bc ab ac r, BigInt.add b c = Ret bc /\ BigInt.mul a b = Ret ab /\
                      BigInt.mul a c = Ret ac /\
                      BigInt.mul a bc = Ret r /\ BigInt.add ab ac = Ret r).
Proof.
  intros Ha Hb Hc.
  pose proof (canonical_digits a Ha) as Hda.
  pose proof (canonical_digits b Hb) as Hdb.
  pose proof (canonical_digits c Hc) as Hdc.
  destruct (add_canonical a b Ha Hb) as (ab & Eab & Hab & Vab).
  destruct (add_canonical b c Hb Hc) as (bc & Ebc & Hbc & Vbc).
  destruct (mul_spec a b Hda Hdb) as (mab & Emab & Hmab & Vmab).
  destruct (mul_spec b c Hdb Hdc) as (mbc & Embc & Hmbc & Vmbc).
  destruct (mul_spec a c Hda Hdc) as (mac & Emac & Hmac & Vmac).
  split; [|split].
  - destruct (add_canonical ab c Hab Hc) as (r & Er & Hr & Vr).
    destruct (add_canonical a bc Ha Hbc) as (r' & Er' & Hr' & Vr').
    exists ab, bc, r. repeat (split; [assumption|]).
    rewrite Er'. f_equal. apply canonical_unique; try assumption. lia.
  - destruct (mul_spec mab c (canonical_digits _ Hmab) Hdc) as (r & Er & Hr & Vr).
    destruct (mul_spec a mbc Hda (canonical_digits _ Hmbc)) as (r' & Er' & Hr' & Vr').
    exists mab, mbc, r. repeat (split; [assumption|]).
    rewrite Er'. f_equal. apply canonical_unique; try assumption.
    rewrite Vr, Vr', Vmab, Vmbc. ring.
  - destruct (mul_spec a bc Hda (canonical_digits _ Hbc)) as (r & Er & Hr & Vr).
    destruct (add_canonical mab mac Hmab Hmac) as (r' & Er' & Hr' & Vr').
    exists bc, mab, mac, r. repeat (split; [assumption|]).
    rewrite Er'. f_equal. apply canonical_unique; try assumption.
    rewrite Vr, Vr', Vbc, Vmab, Vmac. ring.
Qed.

(** X9 at 999, 25 and 1234. *)
Lemma X9_arithmetic_laws_witness :
  (exists ab bc r, BigInt.add [9; 9; 9] [5; 2] = Ret ab /\
                   BigInt.add [5; 2] [4; 3; 2; 1] = Ret bc /\
                   BigInt.add ab [4; 3; 2; 1] = Ret r /\
                   BigInt.add [9; 9; 9] bc = Ret r) /\
  (exists ab bc r, BigInt.mul [9; 9; 9] [5; 2] = Ret ab /\
                   BigInt.mul [5; 2] [4; 3; 2; 1] = Ret bc /\
                   BigInt.mul ab [4; 3; 2; 1] = Ret r /\
                   BigInt.mul [9; 9; 9] bc = Ret r) /\
  (exists bc ab ac r, BigInt.add [5; 2] [4; 3; 2; 1] = Ret bc /\
                      BigInt.mul [9; 9; 9] [5; 2] = Ret ab /\
                      BigInt.mul [9; 9; 9] [4; 3; 2; 1] = Ret ac /\
                      BigInt.mul [9; 9; 9] bc = Ret r /\
                      BigInt.add ab ac = Ret r).
Proof.
  apply (X9_arithmetic_laws [9; 9; 9] [5; 2] [4; 3; 2; 1]);
    apply canonical_of_list; reflexivity.
Defined.

(** X10 (the order of canonical values).  On canonical operands [==] is
    the equality of the values, and [<=] is a total order: of two values
    one is [<=] the other, two values each [<=] the other are [==], and
    [<=] is transitive. *)
Theorem X10_total_order (a b c : BigInt.t) :
  canonical a -> canonical b -> canonical c ->
  (BigInt.eqb a b = true <-> value a = value b) /\
  (BigInt.leb a b = true \/ BigInt.leb b a = true) /\
  (BigInt.leb a b = true -> BigInt.leb b a = true -> BigInt.eqb a b = true) /\
  (BigInt.leb a b = true -> BigInt.leb b c = true -> BigInt.leb a c = true).
Proof.
  intros Ha Hb Hc.
  assert (Hle : forall x y, canonical x -> canonical y ->
            (BigInt.leb x y = true <-> value x <= value y))
    by (intros x y Hx Hy; apply leb_spec; auto).
  assert (Heq : BigInt.eqb a b = true <-> value a = value b).
  { rewrite eqb_eq. split; [intros ->; reflexivity|].
    apply canonical_unique; assumption. }
  split; [exact Heq|].
  rewrite !Hle by assumption. rewrite Heq.
  split; [lia|]. split; lia.
Qed.

(** X10 at 99, 100 and 1234. *)
Lemma X10_total_order_witness :
  (BigInt.eqb [9; 9] [0; 0; 1] = true <-> value [9; 9] = value [0; 0; 1]) /\
  (BigInt.leb [9; 9] [0; 0; 1] = true \/ BigInt.leb [0; 0; 1] [9; 9] = true) /\
  (BigInt.leb [9; 9] [0; 0; 1] = true -> BigInt.leb [0; 0; 1] [9; 9] = true ->
   BigInt.eqb [9; 9] [0; 0; 1] = true) /\
  (BigInt.leb [9; 9] [0; 0; 1] = true -> BigInt.leb [0; 0; 1] [4; 3; 2; 1] = true ->
   BigInt.leb [9; 9] [4; 3; 2; 1] = true).
Proof.
  apply (X10_total_order [9; 9] [0; 0; 1] [4; 3; 2; 1]);
    apply canonical_of_list; reflexivity.
Defined.

(** X11 ([size] counts decimal digits).  A canonical value of [n >= 1]
    digits lies between [10 ^ (n-1)] and [10 ^ n - 1].  The sum of two
    canonical values has as many digits as the longer operand, or one
    more, the latter exactly when the sum reaches the next power of ten;
    the product has at most as many digits as the two operands together. *)
Theorem X11_size_of_results (a b : BigInt.t) :
  canonical a -> canonical b ->
  (a <> [] ->
   pow10 (BigInt.size a - 1) <= value a < pow10 (BigInt.size a)) /\
  (exists s, BigInt.add a b = Ret s /\
     let m := Nat.max (BigInt.size a) (BigInt.size b) in
     (BigInt.size s = m \/ BigInt.size s = S m) /\
     (BigInt.size s = S m <-> pow10 m <= value a + value b)) /\
  (exists p, BigInt.mul a b = Ret p /\
     (BigInt.size p <= BigInt.size a + BigInt.size b)%nat).
Proof.
  intros Ha Hb. unfold BigInt.size.
  pose proof (canonical_digits a Ha) as Hda.
  pose proof (canonical_digits b Hb) as Hdb.
  pose proof (value_bound a Hda) as Hba. pose proof (value_bound b Hdb) as Hbb.
  split; [|split].
  - intros Hne. split; [apply canonical_lower'; assumption|lia].
  - destruct (add_spec a b Hda Hdb _ eq_refl) as (s & Es & Hs & Vs & Hlen).
    exists s. split; [exact Es|]. cbv zeta.
    pose proof (value_bound s Hs) as Hbs.
    split; [destruct Hlen as [H|[H _]]; [left|right]; exact H|].
    destruct Hlen as [H|[H Hlow]]; split; intros Hx; try lia.
    rewrite H in Hbs. lia.
  - destruct (mul_spec a b Hda Hdb) as (p & Ep & Hp & Vp).
    exists p. split; [exact Ep|].
    apply canonical_length_bound; [exact Hp|].
    rewrite Vp, pow10_add. nia.
Qed.

(** X11 at 999 and 25. *)
Lemma X11_size_of_results_witness :
  ([9; 9; 9]%Z <> [] ->
   pow10 (BigInt.size [9; 9; 9]%Z - 1) <= value [9; 9; 9]%Z
     < pow10 (BigInt.size [9; 9; 9]%Z)) /\
  (exists s, BigInt.add [9; 9; 9]%Z [5; 2]%Z = Ret s /\
     let m := Nat.max (BigInt.size [9; 9; 9]%Z) (BigInt.size [5; 2]%Z) in
     (BigInt.size s = m \/ BigInt.size s = S m) /\
     (BigInt.size s = S m <-> pow10 m <= value [9; 9; 9]%Z + value [5; 2]%Z)) /\
  (exists p, BigInt.mul [9; 9; 9]%Z [5; 2]%Z = Ret p /\
     (BigInt.size p <= BigInt.size [9; 9; 9]%Z + BigInt.size [5; 2]%Z)%nat).
Proof.
  apply (X11_size_of_results [9; 9; 9]%Z [5; 2]%Z);
    apply canonical_of_list; reflexivity.
Defined.

(** ** Strings of decimal digits *)

Lemma read_digit_char c :
  digit_char c ->
  digit (read_char c) /\ digit_ascii (read_char c) = c /\
  read_char c = Z.of_N (N_of_ascii c) - 48.
Proof.
  unfold digit_char. intros H. rewrite <- (ascii_N_embedding c) at 1 2 3 4.
  remember (N_of_ascii c) as n eqn:En. clear En c.
  assert (n = 48 \/ n = 49 \/ n = 50 \/ n = 51 \/ n = 52 \/
          n = 53 \/ n = 54 \/ n = 55 \/ n = 56 \/ n = 57)%N as Hn by lia.
  unfold digit.
  repeat (destruct Hn as [->|Hn]; [vm_compute; intuition congruence|]).
  subst n. vm_compute. intuition congruence.
Qed.

Lemma of_string_map s :
  BigInt.of_string s = map read_char (rev (list_ascii_of_string s)).
Proof. apply of_string_spec. Qed.

Lemma digits_of_string s : digit_string s -> digits (BigInt.of_string s).
Proof.
  intros Hs. rewrite of_string_map. unfold digits.
  apply Forall_map, Forall_rev.
  eapply Forall_impl; [|exact Hs].
  intros c Hc. apply read_digit_char, Hc.
Qed.

Lemma list_ascii_inj s1 s2 :
  list_ascii_of_string s1 = list_ascii_of_string s2 -> s1 = s2.
Proof.
  intros E. rewrite <- (string_of_list_ascii_of_string s1).
  rewrite <- (string_of_list_ascii_of_string s2). rewrite E. reflexivity.
Qed.

(** X12 (printing what was read).  For every string of decimal digits,
    leading zeros and the empty string included, [print] of the [BigInt]
    built from the string writes the string. *)
Theorem X12_print_of_string (s : string) :
  digit_string s -> BigInt.print (BigInt.of_string s) = s.
Proof.
  intros Hs. apply list_ascii_inj.
  rewrite print_spec by (apply digits_of_string, Hs).
  rewrite of_string_map, <- map_rev, rev_involutive, map_map.
  unfold digit_string in Hs.
  induction (list_ascii_of_string s) as [|c l IH]; [reflexivity|].
  inversion Hs as [|c' l' Hc Hl]; subst.
  cbn [map]. rewrite IH by assumption.
  destruct (read_digit_char c Hc) as (_ & E & _). rewrite E. reflexivity.
Qed.

(** X12 at the string "00120". *)
Lemma X12_print_of_string_witness :
  BigInt.print (BigInt.of_string "00120") = "00120"%string.
Proof.
  apply (X12_print_of_string "00120").
  unfold digit_string, digit_char. cbn [list_ascii_of_string].
  repeat constructor; vm_compute; discriminate.
Defined.

Lemma value_of_digit_chars chars :
  Forall digit_char chars ->
  value (map read_char (rev chars)) =
  fold_left (fun acc c => 10 * acc + (Z.of_N (N_of_ascii c) - 48)) chars 0.
Proof.
  induction chars as [|c l IH] using rev_ind; intros H; [reflexivity|].
  apply Forall_app in H. destruct H as [Hl Hc].
  inversion Hc as [|c' l' Hc' _]; subst.
  rewrite rev_app_distr, fold_left_app. cbn [rev app map value fold_left].
  rewrite IH by assumption.
  destruct (read_digit_char c Hc') as (_ & _ & E). rewrite E. ring.
Qed.

Lemma read_char_zero c : digit_char c -> (read_char c = 0 <-> c = "0"%char).
Proof.
  intros Hc. destruct (read_digit_char c Hc) as (_ & _ & E). rewrite E.
  split.
  - intros H. rewrite <- (ascii_N_embedding c).
    replace (N_of_ascii c) with 48%N by lia. reflexivity.
  - intros ->. reflexivity.
Qed.

Lemma of_string_value s :
  digit_string s -> value (BigInt.of_string s) = decimal_value s.
Proof.
  intros Hs. rewrite of_string_map. apply value_of_digit_chars, Hs.
Qed.

Lemma of_string_canonical s :
  digit_string s ->
  canonical (BigInt.of_string s) <-> forall t, s <> String "0" t.
Proof.
  intros Hs. pose proof (digits_of_string s Hs) as Hd.
  unfold canonical. rewrite of_string_map in *.
  destruct s as [|c s]; cbn [list_ascii_of_string rev map].
  - cbn [last]. split; [intros _ t; discriminate|].
    intros _. split; [apply digits_nil|lia].
  - unfold digit_string in Hs. cbn [list_ascii_of_string] in Hs.
    inversion Hs as [|c' l' Hc Hl]; subst.
    rewrite map_app. cbn [map]. rewrite last_last.
    pose proof (read_char_zero c Hc) as Hz.
    split.
    + intros [_ Hnz] t E. injection E as -> _. apply Hnz, Hz. reflexivity.
    + intros Hne. split.
      * cbn [list_ascii_of_string rev map] in Hd. rewrite map_app in Hd.
        exact Hd.
      * intros E0. apply Hz in E0. subst c. apply (Hne s). reflexivity.
Qed.

(** X13 ([BigInt(string)] on a string of decimal digits).  The sequence
    built has one decimal digit for every character and the value the
    string denotes; leading zeros are kept, so it is canonical exactly
    when the string does not start with the character 0. *)
Theorem X13_of_string_digits (s : string) :
  digit_string s ->
  digits (BigInt.of_string s) /\
  BigInt.size (BigInt.of_string s) = String.length s /\
  value (BigInt.of_string s) = decimal_value s /\
  (canonical (BigInt.of_string s) <-> forall t, s <> String "0" t).
Proof.
  intros Hs. split; [apply digits_of_string, Hs|]. split; [|split].
  - unfold BigInt.size. rewrite of_string_map, length_map, length_rev.
    apply length_list_ascii.
  - apply of_string_value, Hs.
  - apply of_string_canonical, Hs.
Qed.

(** X13 at the string "0120". *)
Lemma X13_of_string_digits_witness :
  digits (BigInt.of_string "0120") /\
  BigInt.size (BigInt.of_string "0120") = String.length "0120" /\
  value (BigInt.of_string "0120") = decimal_value "0120" /\
  (canonical (BigInt.of_string "0120") <-> forall t, "0120"%string <> String "0" t).
Proof.
  apply (X13_of_string_digits "0120").
  unfold digit_string, digit_char. cbn [list_ascii_of_string].
  repeat constructor; vm_compute; discriminate.
Defined.

(** ** The two constructors *)

(** X14 ([BigInt(int)]).  For an [int] [n], [BigInt(n)] is canonical and
    has the value [n], or zero, the empty sequence, when [n] is negative;
    and every canonical value that fits an [int] is the [BigInt] of its
    value. *)
Theorem X14_of_int (n : Z) (a : BigInt.t) :
  n <= INT_MAX ->
  canonical (BigInt.of_int n) /\
  value (BigInt.of_int n) = Z.max 0 n /\
  (n <= 0 -> BigInt.of_int n = []) /\
  (canonical a -> value a = n -> BigInt.of_int n = a).
Proof.
  intros Hn. destruct (of_int_loop_exhausts n Hn) as [Hc Hv].
  split; [exact Hc|]. split; [exact Hv|]. split.
  - intros Hneg. apply canonical_value_zero; [exact Hc|]. lia.
  - intros Ha Hva. apply canonical_unique; try assumption.
    pose proof (value_nonneg a (canonical_digits _ Ha)). lia.
Qed.

(** X14 at [INT_MAX]. *)
Lemma X14_of_int_witness :
  canonical (BigInt.of_int 2147483647) /\
  value (BigInt.of_int 2147483647) = Z.max 0 2147483647 /\
  (2147483647 <= 0 -> BigInt.of_int 2147483647 = []) /\
  (canonical [7; 4; 6; 3; 8; 4; 7; 4; 1; 2] ->
   value [7; 4; 6; 3; 8; 4; 7; 4; 1; 2] = 2147483647 ->
   BigInt.of_int 2147483647 = [7; 4; 6; 3; 8; 4; 7; 4; 1; 2]).
Proof.
  apply (X14_of_int 2147483647 [7; 4; 6; 3; 8; 4; 7; 4; 1; 2]).
  unfold INT_MAX. lia.
Defined.

(** X15 (the two constructors compared).  For a string of decimal digits
    whose number fits an [int], [BigInt(number) == BigInt(string)] is true
    exactly when the string does not start with the character 0; the
    empty string compares equal to [BigInt(0)], the string "0" does not. *)
Theorem X15_constructors_agree (s : string) :
  digit_string s -> decimal_value s <= INT_MAX ->
  (BigInt.eqb (BigInt.of_int (decimal_value s)) (BigInt.of_string s) = true
   <-> forall t, s <> String "0" t).
Proof.
  intros Hs Hmax.
  destruct (of_int_loop_exhausts (decimal_value s) Hmax) as [Hc Hv].
  pose proof (of_string_value s Hs) as Hvs.
  pose proof (value_nonneg _ (digits_of_string s Hs)) as Hpos.
  rewrite eqb_eq, <- (of_string_canonical s Hs). split.
  - intros <-. exact Hc.
  - intros Hcs. apply canonical_unique; try assumption. lia.
Qed.

(** X15 at the string "25". *)
Lemma X15_constructors_agree_witness :
  BigInt.eqb (BigInt.of_int (decimal_value "25")) (BigInt.of_string "25") = true
  <-> forall t, "25"%string <> String "0" t.
Proof.
  apply (X15_constructors_agree "25").
  - unfold digit_string, digit_char. cbn [list_ascii_of_string].
    repeat constructor; vm_compute; discriminate.
  - vm_compute. discriminate.
Defined.

(** ** Factorial of a receiver with a leading zero *)

Section FactorialLeadingZero.

Variable this : BigInt.t.
Hypothesis Hthis : digits this.
Hypothesis Hlong : (2 <= length this)%nat.
Hypothesis Hzero : last this 1 = 0.

(** Against such a receiver [i <= *this] only looks at the sizes. *)
Lemma leb_leading_zero i :
  canonical i ->
  BigInt.leb i this = true <-> value i <= pow10 (length this - 1) - 1.
Proof.
  intros Hi. pose proof (canonical_digits i Hi) as Hdi.
  pose proof (value_bound i Hdi) as Hbi.
  assert (Hv : value this < pow10 (length this - 1)).
  { assert (Hne : this <> []) by (intros E; rewrite E in Hlong; cbn in Hlong; lia).
    destruct (exists_last Hne) as (l & d & E). rewrite E in *.
    rewrite last_last in Hzero. subst d.
    rewrite value_snoc, length_app. cbn [length].
    replace (length l + 1 - 1)%nat with (length l) by lia.
    apply digits_snoc in Hthis. destruct Hthis as [Hl _].
    pose proof (value_bound l Hl). lia. }
  unfold BigInt.leb.
  destruct (Nat.eqb_spec (length i) (length this)) as [E|E]; cbn [negb].
  - rewrite leb_loop_spec by assumption.
    rewrite value_firstn_all by lia. rewrite value_firstn_all by lia.
    assert (i <> []) by (intros ->; cbn [length] in E; lia).
    pose proof (canonical_lower' i Hi ltac:(assumption)) as Hlow.
    rewrite E in Hlow. lia.
  - rewrite Nat.ltb_lt. split.
    + intros Hlt.
      assert (pow10 (length i) <= pow10 (length this - 1)) by (apply pow10_le; lia).
      lia.
    + intros Hle.
      assert (Hlt : value i < pow10 (length this - 1)) by lia.
      pose proof (canonical_length_bound i _ Hi Hlt). lia.
Qed.

Lemma fact_loop_leading_zero fuel : forall result i,
  canonical result -> canonical i -> 2 <= value i ->
  value result = factorial (value i - 1) ->
  value i <= pow10 (length this - 1) ->
  pow10 (length this - 1) <= Z.of_nat fuel + value i ->
  exists r, BigInt.fact_loop fuel this result i = Ret r /\
            canonical r /\ value r = factorial (pow10 (length this - 1) - 1).
Proof.
  induction fuel as [|fuel IH]; intros result i Hr Hi Hi2 Hv Hup Hf;
    cbn [BigInt.fact_loop]; destruct (BigInt.leb i this) eqn:Hleb.
  2,4: (apply not_true_iff_false in Hleb; rewrite leb_leading_zero in Hleb by auto;
        exists result; split; [reflexivity|]; split; [exact Hr|];
        rewrite Hv; f_equal; lia).
  - apply leb_leading_zero in Hleb; auto. lia.
  - apply leb_leading_zero in Hleb; auto.
    destruct (mul_spec result i (canonical_digits _ Hr) (canonical_digits _ Hi))
      as (p & Ep & Hcp & Hvp).
    destruct (add_canonical i (BigInt.of_int 1) Hi) as (i' & Ei & Hci & Hvi).
    { apply of_int_canonical. unfold INT_MAX. lia. }
    rewrite of_int_value in Hvi by (unfold INT_MAX; lia).
    rewrite Ep, bind_Ret, Ei, bind_Ret.
    apply IH; try assumption; try lia.
    rewrite Hvp, Hv, Hvi. replace (value i + 1 - 1) with (value i) by lia.
    symmetry. apply factorial_step. lia.
Qed.

End FactorialLeadingZero.

(** X16 ([fact] of a receiver with a leading zero).  For a receiver of
    [n >= 2] decimal digits whose most significant digit is zero, such as
    [BigInt("05")], [i <= *this] holds for every [i] of fewer digits and
    for no other: [fact] returns the factorial of [10 ^ (n-1) - 1],
    whatever the value of the receiver. *)
Theorem X16_fact_leading_zero (this : BigInt.t) :
  digits this -> (2 <= length this)%nat -> last this 1 = 0 ->
  exists r, BigInt.fact this = Ret r /\ canonical r /\
            value r = factorial (pow10 (length this - 1) - 1).
Proof.
  intros Hd Hlen Hz. unfold BigInt.fact.
  assert (H10 : pow10 1 <= pow10 (length this - 1)) by (apply pow10_le; lia).
  change (pow10 1) with 10 in H10.
  apply (fact_loop_leading_zero this Hd Hlen Hz).
  - apply canonical_of_list. reflexivity.
  - apply canonical_of_list. reflexivity.
  - cbn. lia.
  - reflexivity.
  - change (value (BigInt.of_int 2)) with 2. lia.
  - rewrite pow10_nat. change (value (BigInt.of_int 2)) with 2.
    assert (pow10 (length this - 1) <= pow10 (length this))
      by (apply pow10_le; lia).
    lia.
Qed.

(** X16 at [BigInt("05")]: [fact] returns the factorial of 9. *)
Lemma X16_fact_leading_zero_witness :
  exists r, BigInt.fact [5; 0] = Ret r /\ canonical r /\
            value r = factorial (pow10 (length [5; 0]%Z - 1) - 1).
Proof.
  apply (X16_fact_leading_zero [5; 0]).
  - apply digits_of_list. reflexivity.
  - cbn [length]. lia.
  - reflexivity.
Defined.

(** * Properties of [Bucket] *)

(** ** One pass of the bubble sort *)

Lemma update_app_right (p q : list Z) k d :
  update (p ++ q) (length p + k) d = p ++ update q k d.
Proof.
  induction p as [|x p IH]; [reflexivity|].
  cbn [app length Nat.add update]. rewrite IH. reflexivity.
Qed.

Lemma swap_app_right (p q : list Z) k :
  Bucket.swap (p ++ q) (length p + k) = p ++ Bucket.swap q k.
Proof.
  unfold Bucket.swap.
  replace (S (length p + k)) with (length p + S k)%nat by lia.
  rewrite !app_nth2_plus, !update_app_right. reflexivity.
Qed.

(** The pass does to a vector behind a prefix what it does to the vector
    alone. *)
Lemma sort_inner_shift (p : list Z) n : forall q c k,
  Bucket.sort_inner n (p ++ q) c (length p + k) =
  (p ++ fst (Bucket.sort_inner n q c k), snd (Bucket.sort_inner n q c k)).
Proof.
  induction n as [|n IH]; intros q c k; cbn [Bucket.sort_inner]; [reflexivity|].
  replace (S (length p + k)) with (length p + S k)%nat by lia.
  rewrite !app_nth2_plus.
  destruct (nth k q 0 >? nth (S k) q 0).
  - rewrite swap_app_right. apply IH.
  - apply IH.
Qed.

(** The pass from the front of a vector of two elements or more. *)
Lemma sort_inner_cons n x y r c :
  Bucket.sort_inner (S n) (x :: y :: r) c 0 =
  if x >? y
  then (y :: fst (Bucket.sort_inner n (x :: r) (c + 1) 0),
        snd (Bucket.sort_inner n (x :: r) (c + 1) 0))
  else (x :: fst (Bucket.sort_inner n (y :: r) c 0),
        snd (Bucket.sort_inner n (y :: r) c 0)).
Proof.
  cbn [Bucket.sort_inner nth].
  destruct (x >? y).
  - change (Bucket.swap (x :: y :: r) 0) with ([y] ++ x :: r).
    apply (sort_inner_shift [y] n (x :: r) (c + 1) 0%nat).
  - apply (sort_inner_shift [x] n (y :: r) c 0%nat).
Qed.

Lemma sort_inner_permutation n : forall v c,
  (n < length v)%nat ->
  Permutation v (fst (Bucket.sort_inner n v c 0)).
Proof.
  induction n as [|n IH]; intros v c Hn; [apply Permutation_refl|].
  destruct v as [|x [|y r]]; cbn [length] in Hn; try lia.
  rewrite sort_inner_cons. destruct (x >? y); cbn [fst].
  - eapply perm_trans; [apply perm_swap|].
    apply perm_skip, IH. cbn [length]. lia.
  - apply perm_skip, IH. cbn [length]. lia.
Qed.

Lemma filter_length_permutation (f : Z -> bool) (l l' : list Z) :
  Permutation l l' -> length (filter f l) = length (filter f l').
Proof.
  intros H. induction H as [|x l l' H IH|x y l|l l' l'' H1 IH1 H2 IH2];
    cbn [filter]; try reflexivity.
  - destruct (f x); cbn [length]; lia.
  - destruct (f x), (f y); reflexivity.
  - lia.
Qed.

(** Every swap of the pass removes exactly one inversion. *)
Lemma sort_inner_inversions n : forall v c,
  (n < length v)%nat ->
  snd (Bucket.sort_inner n v c 0) + inversions (fst (Bucket.sort_inner n v c 0))
  = c + inversions v.
Proof.
  induction n as [|n IH]; intros v c Hn; [cbn; lia|].
  destruct v as [|x [|y r]]; cbn [length] in Hn; try lia.
  rewrite sort_inner_cons. destruct (Z.gtb_spec x y) as [Hgt|Hle]; cbn [fst snd].
  - assert (Hn' : (n < length (x :: r))%nat) by (cbn [length]; lia).
    pose proof (IH (x :: r) (c + 1) Hn') as HI.
    pose proof (sort_inner_permutation n (x :: r) (c + 1) Hn') as HP.
    cbn [inversions] in *.
    rewrite <- (filter_length_permutation _ _ _ HP).
    cbn [filter]. destruct (Z.ltb_spec x y); [lia|].
    destruct (Z.ltb_spec y x); [|lia]. cbn [length]. lia.
  - assert (Hn' : (n < length (y :: r))%nat) by (cbn [length]; lia).
    pose proof (IH (y :: r) c Hn') as HI.
    pose proof (sort_inner_permutation n (y :: r) c Hn') as HP.
    cbn [inversions] in *.
    rewrite <- (filter_length_permutation _ _ _ HP). lia.
Qed.

(** The pass over a whole vector takes its largest element to the end. *)
Lemma sort_inner_max r : forall x c,
  exists l m, fst (Bucket.sort_inner (length r) (x :: r) c 0) = l ++ [m] /\
              Forall (fun y => y <= m) l /\ x <= m.
Proof.
  induction r as [|y r IH]; intros x c.
  - exists [], x. cbn. repeat split; [constructor|lia].
  - cbn [length]. rewrite sort_inner_cons.
    destruct (Z.gtb_spec x y) as [Hgt|Hle]; cbn [fst].
    + destruct (IH x (c + 1)) as (l & m & E & Hl & Hx).
      exists (y :: l), m. rewrite E. split; [reflexivity|].
      split; [constructor; [lia|exact Hl]|exact Hx].
    + destruct (IH y c) as (l & m & E & Hl & Hy).
      exists (x :: l), m. rewrite E. split; [reflexivity|].
      split; [constructor; [lia|exact Hl]|lia].
Qed.

(** The pass over a prefix leaves the rest of the vector alone. *)
Lemma sort_inner_prefix n : forall v s c,
  (n < length v)%nat ->
  Bucket.sort_inner n (v ++ s) c 0 =
  (fst (Bucket.sort_inner n v c 0) ++ s, snd (Bucket.sort_inner n v c 0)).
Proof.
  induction n as [|n IH]; intros v s c Hn; [reflexivity|].
  destruct v as [|x [|y r]]; cbn [length] in Hn; try lia.
  change ((x :: y :: r) ++ s) with (x :: y :: (r ++ s)).
  rewrite !sort_inner_cons. destruct (x >? y); cbn [fst snd].
  - change (x :: r ++ s) with ((x :: r) ++ s).
    rewrite IH by (cbn [length]; lia). reflexivity.
  - change (y :: r ++ s) with ((y :: r) ++ s).
    rewrite IH by (cbn [length]; lia). reflexivity.
Qed.

(** ** The whole sort *)

Lemma inversions_nonneg v : 0 <= inversions v.
Proof. induction v as [|x v IH]; cbn [inversions]; lia. Qed.

Lemma inversions_sorted v : StronglySorted Z.le v -> inversions v = 0.
Proof.
  induction v as [|x v IH]; intros H; [reflexivity|].
  inversion H as [|x' v' Hs Hall]; subst. cbn [inversions].
  rewrite IH by assumption.
  replace (filter (fun y => y <? x) v) with (@nil Z); [reflexivity|].
  symmetry. clear IH Hs H. induction v as [|y v IHv]; [reflexivity|].
  inversion Hall as [|y' v' Hy Hv]; subst. cbn [filter].
  destruct (Z.ltb_spec y x); [lia|]. apply IHv, Hv.
Qed.

(** Two sorted vectors with the same elements are the same vector. *)
Lemma sorted_permutation_eq a : forall b,
  StronglySorted Z.le a -> StronglySorted Z.le b -> Permutation a b -> a = b.
Proof.
  induction a as [|x a IH]; intros b Ha Hb Hp.
  - apply Permutation_nil in Hp. subst. reflexivity.
  - destruct b as [|y b].
    + apply Permutation_sym, Permutation_nil in Hp. discriminate Hp.
    + inversion Ha as [|x' a' Hsa Halla]; subst.
      inversion Hb as [|y' b' Hsb Hallb]; subst.
      assert (Hxy : x = y).
      { assert (Hy : In y (x :: a))
          by (apply (Permutation_in _ (Permutation_sym Hp)); left; reflexivity).
        assert (Hx : In x (y :: b))
          by (apply (Permutation_in _ Hp); left; reflexivity).
        rewrite Forall_forall in Halla, Hallb.
        destruct Hy as [Hy|Hy]; [congruence|].
        destruct Hx as [Hx|Hx]; [congruence|].
        specialize (Halla y Hy). specialize (Hallb x Hx). lia. }
      subst y. f_equal. apply IH; try assumption.
      apply Permutation_cons_inv in Hp. exact Hp.
Qed.

(** The state of the outer loop of [sort] before the pass number [i]: the
    last [i] elements are sorted and no smaller than the others. *)
Lemma sort_outer_spec k : forall pre suf c,
  length pre = k ->
  StronglySorted Z.le suf ->
  Forall (fun x => Forall (fun y => x <= y) suf) pre ->
  let r := Bucket.sort_outer k (pre ++ suf) c (length suf) in
  StronglySorted Z.le (fst r) /\
  Permutation (pre ++ suf) (fst r) /\
  snd r + inversions (fst r) = c + inversions (pre ++ suf).
Proof.
  induction k as [|k IH]; intros pre suf c Hlen Hsuf Hpre r; subst r.
  - destruct pre; [|discriminate Hlen]. cbn [app Bucket.sort_outer fst snd].
    split; [exact Hsuf|]. split; [apply Permutation_refl|reflexivity].
  - destruct pre as [|x p]; [discriminate Hlen|].
    cbn [length] in Hlen. injection Hlen as Hlen.
    cbn [Bucket.sort_outer].
    replace (length ((x :: p) ++ suf) - length suf - 1)%nat with (length p)
      by (rewrite length_app; cbn [length]; lia).
    assert (Hn : (length p < length (x :: p))%nat) by (cbn [length]; lia).
    assert (Hn' : (length p < length ((x :: p) ++ suf))%nat)
      by (rewrite length_app; cbn [length]; lia).
    pose proof (sort_inner_inversions (length p) ((x :: p) ++ suf) c Hn') as Hinv.
    rewrite sort_inner_prefix in * by exact Hn. cbn [fst snd] in Hinv.
    pose proof (sort_inner_permutation (length p) (x :: p) c Hn) as Hperm.
    destruct (sort_inner_max p x c) as (l & m & E & Hl & _).
    rewrite E in *. rewrite <- app_assoc in *. cbn [app] in *.
    assert (Hlenl : length l = k).
    { apply Permutation_length in Hperm. rewrite length_app in Hperm.
      cbn [length] in Hperm. lia. }
    assert (Hin : forall y, In y (l ++ [m]) -> Forall (fun z => y <= z) suf).
    { intros y Hy. rewrite Forall_forall in Hpre. apply Hpre.
      apply (Permutation_in _ (Permutation_sym Hperm)), Hy. }
    destruct (IH l (m :: suf) (snd (Bucket.sort_inner (length p) (x :: p) c 0)))
      as (Hs & Hp & Hi).
    + exact Hlenl.
    + constructor; [exact Hsuf|]. apply Hin, in_or_app. right. left. reflexivity.
    + rewrite Forall_forall in Hl |- *. intros y Hy.
      constructor; [apply Hl, Hy|]. apply Hin, in_or_app. left. exact Hy.
    + cbn [length] in Hs, Hp, Hi.
      split; [exact Hs|]. split.
      * eapply perm_trans; [|exact Hp].
        change (x :: p ++ suf) with ((x :: p) ++ suf).
        replace (l ++ m :: suf) with ((l ++ [m]) ++ suf)
          by (rewrite <- app_assoc; reflexivity).
        apply Permutation_app_tail, Hperm.
      * rewrite Hi. exact Hinv.
Qed.

Lemma sort_spec v c :
  StronglySorted Z.le (fst (Bucket.sort v c)) /\
  Permutation v (fst (Bucket.sort v c)) /\
  snd (Bucket.sort v c) = c + inversions v.
Proof.
  unfold Bucket.sort.
  pose proof (sort_outer_spec (length v) v [] c eq_refl
                (SSorted_nil Z.le)) as H.
  rewrite app_nil_r in H. cbn [length] in H.
  destruct H as (Hs & Hp & Hi).
  - apply Forall_forall. intros x _. constructor.
  - split; [exact Hs|]. split; [exact Hp|].
    rewrite (inversions_sorted _ Hs) in Hi. lia.
Qed.

(** X17 ([Bucket::sort] sorts).  For every vector, [sort] leaves the same
    elements, as many times each, in non-decreasing order. *)
Theorem X17_sort_sorted_permutation (v : Bucket.t) (globalSwapCount : Z) :
  let v' := fst (Bucket.sort v globalSwapCount) in
  StronglySorted Z.le v' /\ Permutation v v' /\
  Bucket.size v' = Bucket.size v.
Proof.
  destruct (sort_spec v globalSwapCount) as (Hs & Hp & _).
  cbv zeta. split; [exact Hs|]. split; [exact Hp|].
  unfold Bucket.size. f_equal. symmetry. apply Permutation_length, Hp.
Qed.

(** X18 (the swaps counted).  [sort] adds to [globalSwapCount] the number
    of inversions of the vector, the pairs of positions whose elements
    are out of order: none for a vector already sorted, which [sort]
    leaves as it is, and [n (n-1) / 2] at most for [n] elements. *)
Theorem X18_sort_counts_inversions (v : Bucket.t) (globalSwapCount : Z) :
  snd (Bucket.sort v globalSwapCount) = globalSwapCount + inversions v /\
  0 <= 2 * inversions v <= Bucket.size v * (Bucket.size v - 1) /\
  (StronglySorted Z.le v ->
   Bucket.sort v globalSwapCount = (v, globalSwapCount)).
Proof.
  destruct (sort_spec v globalSwapCount) as (Hs & Hp & Hc).
  split; [exact Hc|]. split.
  - unfold Bucket.size. clear. induction v as [|x v IH]; [cbn; lia|].
    cbn [inversions length].
    pose proof (filter_length_le (fun y => y <? x) v). nia.
  - intros Hv. rewrite (surjective_pairing (Bucket.sort v globalSwapCount)).
    f_equal.
    + symmetry. apply sorted_permutation_eq; assumption.
    + rewrite Hc, (inversions_sorted v Hv). lia.
Qed.

(** X18 at the sorted vector 1, 2, 2, 5. *)
Lemma X18_sort_counts_inversions_witness :
  snd (Bucket.sort [1; 2; 2; 5] 7) = 7 + inversions [1; 2; 2; 5] /\
  0 <= 2 * inversions [1; 2; 2; 5]
    <= Bucket.size [1; 2; 2; 5] * (Bucket.size [1; 2; 2; 5] - 1) /\
  (StronglySorted Z.le [1; 2; 2; 5] ->
   Bucket.sort [1; 2; 2; 5] 7 = ([1; 2; 2; 5], 7)).
Proof.
  apply (X18_sort_counts_inversions [1; 2; 2; 5] 7).
Defined.

(** ** Generation *)

Lemma generate_loop_spec rand min max n : forall calls v,
  Bucket.generate_loop n rand calls v min max =
  (v ++ map (fun k => min + Z.rem (rand k) (max - min + 1)) (seq calls n),
   (calls + n)%nat).
Proof.
  induction n as [|n IH]; intros calls v; cbn [Bucket.generate_loop seq map].
  - rewrite app_nil_r, Nat.add_0_r. reflexivity.
  - rewrite IH, <- app_assoc. cbn [app]. f_equal. lia.
Qed.

Lemma generate_spec rand calls v size min max :
  min <= max -> (forall k, 0 <= rand k) ->
  exists fresh,
    Bucket.generate rand calls v size min max =
      (v ++ fresh, (calls + Z.to_nat size)%nat) /\
    length fresh = Z.to_nat size /\
    Forall (fun x => min <= x <= max) fresh.
Proof.
  intros Hmm Hrand. unfold Bucket.generate. rewrite generate_loop_spec.
  eexists. split; [reflexivity|]. split.
  - rewrite length_map, length_seq. reflexivity.
  - apply Forall_map, Forall_forall. intros k _.
    pose proof (Z.rem_bound_pos (rand k) (max - min + 1) (Hrand k) ltac:(lia)).
    lia.
Qed.

(** X19 ([Bucket::generate]).  With [min <= max], a range that fits an
    [int] and a [rand()] that returns non-negative numbers, [generate]
    keeps the elements of the bucket, appends [size] numbers (none for a
    negative [size]), each between [min] and [max] inclusive, and calls
    [rand()] once for each. *)
Theorem X19_generate_in_range (rand : nat -> Z) (calls : nat) (v : Bucket.t)
    (size min max : Z) :
  min <= max -> max - min < INT_MAX -> (forall k, 0 <= rand k) ->
  exists fresh,
    Bucket.generate rand calls v size min max =
      (v ++ fresh, (calls + Z.to_nat size)%nat) /\
    length fresh = Z.to_nat size /\
    Forall (fun x => min <= x <= max) fresh.
Proof.
  intros Hmm _ Hrand. apply generate_spec; assumption.
Qed.

(** X19 at three numbers between 10 and 20 from a [rand()] that returns
    41, 42, 43, ... *)
Lemma X19_generate_in_range_witness :
  exists fresh,
    Bucket.generate (fun k => 41 + Z.of_nat k) 0 [7] 3 10 20 =
      ([7] ++ fresh, (0 + Z.to_nat 3)%nat) /\
    length fresh = Z.to_nat 3 /\
    Forall (fun x => 10 <= x <= 20) fresh.
Proof.
  apply (X19_generate_in_range (fun k => 41 + Z.of_nat k) 0 [7] 3 10 20).
  - lia.
  - unfold INT_MAX. lia.
  - intros k. lia.
Defined.

(** ** The buckets of [main] *)

Section MainBuckets.

Variables (rand : nat -> Z) (bucketSize bucketMin bucketMax : Z).
Hypothesis Hrange : bucketMin <= bucketMax.
Hypothesis Hrand : forall k, 0 <= rand k.

Let in_range (x : Z) : Prop := bucketMin <= x <= bucketMax.

Lemma fill_spec n : forall calls lst,
  exists bs calls',
    Bucket.fill n rand calls lst bucketSize bucketMin bucketMax =
      (lst ++ bs, calls') /\
    length (concat bs) = (n * Z.to_nat bucketSize)%nat /\
    Forall in_range (concat bs).
Proof.
  induction n as [|n IH]; intros calls lst; cbn [Bucket.fill].
  - exists [], calls. rewrite app_nil_r. cbn. auto.
  - destruct (generate_spec rand calls [] bucketSize bucketMin bucketMax Hrange Hrand)
      as (b & E & Hlen & Hall).
    rewrite E. cbn [app].
    destruct (IH (calls + Z.to_nat bucketSize)%nat (lst ++ [b]))
      as (bs & calls' & E' & Hlen' & Hall').
    exists (b :: bs), calls'. cbn [concat]. split; [|split].
    + etransitivity; [exact E'|]. rewrite <- app_assoc. reflexivity.
    + rewrite length_app. lia.
    + apply Forall_app. auto.
Qed.

Lemma sort_each_spec lst : forall c,
  Permutation (concat lst) (concat (fst (Bucket.sort_each lst c))) /\
  c <= snd (Bucket.sort_each lst c).
Proof.
  induction lst as [|b lst IH]; intros c; cbn [Bucket.sort_each].
  - cbn. split; [apply Permutation_refl|lia].
  - destruct (sort_spec b c) as (_ & Hp & Hc).
    destruct (Bucket.sort b c) as [b' c'] eqn:Eb. cbn [fst snd] in Hp, Hc.
    specialize (IH c'). destruct (Bucket.sort_each lst c') as [lst' c''] eqn:El.
    cbn [fst snd concat] in *. destruct IH as [IHp IHc].
    split; [apply Permutation_app; assumption|].
    pose proof (inversions_nonneg b). lia.
Qed.

Lemma merge_all_spec lst : forall endGame c,
  StronglySorted Z.le endGame ->
  StronglySorted Z.le (fst (Bucket.merge_all lst endGame c)) /\
  Permutation (endGame ++ concat lst) (fst (Bucket.merge_all lst endGame c)) /\
  c <= snd (Bucket.merge_all lst endGame c).
Proof.
  induction lst as [|b lst IH]; intros endGame c Hs; cbn [Bucket.merge_all].
  - cbn [fst snd concat]. rewrite app_nil_r.
    split; [exact Hs|]. split; [apply Permutation_refl|lia].
  - unfold Bucket.merge.
    destruct (sort_spec (endGame ++ b) c) as (Hs' & Hp & Hc).
    destruct (Bucket.sort (endGame ++ b) c) as [e' c'] eqn:Ee.
    cbn [fst snd] in Hs', Hp, Hc.
    destruct (IH e' c' Hs') as (IHs & IHp & IHc).
    split; [exact IHs|]. split.
    + eapply perm_trans; [|exact IHp]. cbn [concat].
      rewrite app_assoc. apply Permutation_app_tail, Hp.
    + pose proof (inversions_nonneg (endGame ++ b)). lia.
Qed.

Lemma written_spec (v : Bucket.t) n : forall k,
  (k + n = length v)%nat ->
  Bucket.written n v (Z.of_nat k) = Ret (skipn k v).
Proof.
  induction n as [|n IH]; intros k Hk; cbn [Bucket.written].
  - rewrite skipn_all2 by lia. reflexivity.
  - unfold Bucket.atIndex. destruct (Z.ltb_spec (Z.of_nat k) 0); [lia|].
    rewrite Nat2Z.id, load_in by lia. rewrite bind_Ret.
    replace (Z.of_nat k + 1) with (Z.of_nat (S k)) by lia.
    rewrite IH by lia. rewrite bind_Ret.
    rewrite (skipn_nth_cons v k) by lia. reflexivity.
Qed.

Lemma main_buckets_spec bucketCount :
  let r := Bucket.main_buckets rand bucketCount bucketSize bucketMin bucketMax in
  StronglySorted Z.le (fst r) /\
  length (fst r) = (Z.to_nat bucketCount * Z.to_nat bucketSize)%nat /\
  Forall in_range (fst r) /\
  Bucket.written (length (fst r)) (fst r) 0 = Ret (fst r) /\
  0 <= snd r.
Proof.
  unfold Bucket.main_buckets.
  destruct (fill_spec (Z.to_nat bucketCount) 0%nat [])
    as (bs & calls' & E & Hlen & Hall).
  rewrite E. cbn [app].
  destruct (sort_each_spec bs 0) as [Hp Hc].
  destruct (Bucket.sort_each bs 0) as [bs' c] eqn:Es. cbn [fst snd] in Hp, Hc.
  destruct (merge_all_spec bs' [] c (SSorted_nil Z.le)) as (Hs & Hp' & Hc').
  cbn [app] in Hp'. cbv zeta.
  assert (Hperm : Permutation (concat bs) (fst (Bucket.merge_all bs' [] c)))
    by (eapply perm_trans; eassumption).
  split; [exact Hs|]. split.
  - rewrite <- (Permutation_length Hperm). exact Hlen.
  - split.
    + eapply Permutation_Forall; eassumption.
    + split; [|lia].
      rewrite (written_spec _ _ 0%nat) by lia. reflexivity.
Qed.

End MainBuckets.

(** X20 (what [main] writes).  With [bucketMin <= bucketMax], a range
    that fits an [int] and a [rand()] that returns non-negative numbers,
    the bucket [main] writes to bucketList.out is in non-decreasing order,
    holds [bucketCount * bucketSize] numbers (none when either is
    negative), all between [bucketMin] and [bucketMax]; every [atIndex]
    of the output loop is within bounds and the loop writes the bucket
    from first to last; the final [globalSwapCount] is not negative. *)
Theorem X20_main_buckets (rand : nat -> Z)
    (bucketCount bucketSize bucketMin bucketMax : Z) :
  bucketMin <= bucketMax -> bucketMax - bucketMin < INT_MAX ->
  (forall k, 0 <= rand k) ->
  let r := Bucket.main_buckets rand bucketCount bucketSize bucketMin bucketMax in
  StronglySorted Z.le (fst r) /\
  length (fst r) = (Z.to_nat bucketCount * Z.to_nat bucketSize)%nat /\
  Forall (fun x => bucketMin <= x <= bucketMax) (fst r) /\
  Bucket.written (length (fst r)) (fst r) 0 = Ret (fst r) /\
  0 <= snd r.
Proof.
  intros Hmm _ Hrand.
  apply (main_buckets_spec rand bucketSize bucketMin bucketMax Hmm Hrand).
Qed.

(** X20 at three buckets of four numbers between 10 and 20. *)
Lemma X20_main_buckets_witness :
  let r := Bucket.main_buckets (fun k => 1000 + 7 * Z.of_nat k) 3 4 10 20 in
  StronglySorted Z.le (fst r) /\
  length (fst r) = (Z.to_nat 3 * Z.to_nat 4)%nat /\
  Forall (fun x => 10 <= x <= 20) (fst r) /\
  Bucket.written (length (fst r)) (fst r) 0 = Ret (fst r) /\
  0 <= snd r.
Proof.
  apply (X20_main_buckets (fun k => 1000 + 7 * Z.of_nat k) 3 4 10 20).
  - lia.
  - unfold INT_MAX. lia.
  - intros k. lia.
Defined.

(** X21 ([Bucket::merge]).  After [merge] the receiver holds the elements
    of both buckets, as many times each, in non-decreasing order, whether
    or not the two were sorted before; merging [b] into [v] and [v] into
    [b] leave the same vector. *)
Theorem X21_merge (v b : Bucket.t) (globalSwapCount : Z) :
  let v' := fst (Bucket.merge v b globalSwapCount) in
  StronglySorted Z.le v' /\ Permutation (v ++ b) v' /\
  Bucket.size v' = Bucket.size v + Bucket.size b /\
  fst (Bucket.merge b v globalSwapCount) = v'.
Proof.
  cbv zeta. unfold Bucket.merge.
  destruct (sort_spec (v ++ b) globalSwapCount) as (Hs & Hp & _).
  destruct (sort_spec (b ++ v) globalSwapCount) as (Hs' & Hp' & _).
  split; [exact Hs|]. split; [exact Hp|]. split.
  - unfold Bucket.size. rewrite <- (Permutation_length Hp), length_app. lia.
  - apply sorted_permutation_eq; try assumption.
    eapply perm_trans; [apply Permutation_sym, Hp'|].
    eapply perm_trans; [apply Permutation_app_comm|exact Hp].
Qed.
